(** * ffi_call_stubs.c: call specifications, the invocation engine and the
      callback bridge of ocaml-ctypes, as a shallow embedding.

    The C stubs are embedded function by function.  Mutable C state becomes
    explicit state: a [callspec] record for the builder, a [world] (platform
    error code, runtime lock, observable event trace, registered resolver)
    for the engine and the bridge.  Fallible code lives in a small
    state-and-failure monad whose results are a value, a raised OCaml
    exception, or a fault (a failed [assert], a wild memory access).

    Target: an LP64 platform; [size_t] is 64 bits wide, [int] is 32 bits wide
    and conversions to [int] wrap around. *)

From Stdlib Require Import ZArith List Lia Ascii String Bool.
From stdpp Require Import base list.
Import ListNotations.
Local Open Scope Z_scope.

(** ** Machine integers *)

Definition SIZE_MAX : Z := 2 ^ 64 - 1.
Definition INT_MAX : Z := 2 ^ 31 - 1.
Definition INT_MIN : Z := - 2 ^ 31.

(** Arithmetic on [size_t] is modulo [2^64]. *)
Definition to_size_t (x : Z) : Z := x mod 2 ^ 64.

(** Conversion to a 32-bit [int] keeps the low 32 bits, read as signed. *)
Definition to_int (x : Z) : Z := (x + 2 ^ 31) mod 2 ^ 32 - 2 ^ 31.

(** ** Type tokens (libffi's [ffi_type], the two fields the stubs read) *)

Record ffi_type : Type := mk_ffi_type { size : Z; alignment : Z }.

(** [size] is a [size_t], [alignment] an [unsigned short]; an alignment of
    zero makes [offset % alignment] undefined in C and is excluded. *)
Definition ffi_type_ok (t : ffi_type) : Prop :=
  0 <= size t <= SIZE_MAX /\ 0 < alignment t < 2 ^ 16.

(** libffi's descriptor of a native pointer, and [sizeof(void * )], on the
    LP64 target. *)
Definition ffi_type_pointer : ffi_type := {| size := 8; alignment := 8 |}.
Definition sizeof_voidp : Z := 8.

(** ** Results of a stub *)

Inductive exn : Type :=
  | Unix_error (code : Z) (fname : string)
  | CallToExpiredClosure
  | FFI_internal_error (msg : string)
  | Out_of_memory.

Inductive fault : Type :=
  | Assert_failed
  | Wild_access.

Inductive outcome (A : Type) : Type :=
  | Val (a : A)
  | Exn (e : exn)
  | Fault (f : fault).
Arguments Val {A} a.
Arguments Exn {A} e.
Arguments Fault {A} f.

(** ** The state-and-failure monad *)

Definition M (S A : Type) : Type := S -> outcome A * S.

Definition ret {S A} (a : A) : M S A := fun s => (Val a, s).

Definition bind {S A B} (c : M S A) (k : A -> M S B) : M S B :=
  fun s =>
    match c s with
    | (Val a, s') => k a s'
    | (Exn e, s') => (Exn e, s')
    | (Fault f, s') => (Fault f, s')
    end.

Definition get {S} : M S S := fun s => (Val s, s).
Definition put {S} (s : S) : M S unit := fun _ => (Val tt, s).
Definition modify {S} (f : S -> S) : M S unit := fun s => (Val tt, f s).
Definition raise {S A} (e : exn) : M S A := fun s => (Exn e, s).
Definition crash {S A} (f : fault) : M S A := fun s => (Fault f, s).

(** A computation that touches no state (only C locals), run inside a
    stateful one. *)
Definition pure {S A} (c : M unit A) : M S A := fun s => (fst (c tt), s).

(** C's [assert]. *)
Definition assert_ {S} (b : bool) : M S unit :=
  if b then ret tt else crash Assert_failed.

Notation "'let*' x ':=' c 'in' k" := (bind c (fun x => k))
  (at level 10, x name, c at level 100, k at level 200).
Notation "c '>>' k" := (bind c (fun _ => k))
  (at level 100, k at level 200, right associativity).

(** ** aligned_offset *)

(** Given an offset into a fully-aligned buffer, compute the next offset
    that satisfies [alignment].  The C function divides by [alignment]:
    it is defined for a positive alignment only, and the value of this
    definition at alignment 0 stands for no behaviour of the code. *)
Definition aligned_offset (offset alignment : Z) : Z :=
  let overhang := offset mod alignment in
  if overhang =? 0
  then offset
  else to_size_t (offset - overhang + alignment).

(** ** struct callspec *)

Inductive callspec_state : Type := BUILDING | CALLSPEC.

Definition callspec_state_eqb (a b : callspec_state) : bool :=
  match a, b with
  | BUILDING, BUILDING | CALLSPEC, CALLSPEC => true
  | _, _ => false
  end.

(** The flags come from OCaml booleans through [Int_val]. *)
Record call_context : Type := mk_context {
  check_errno : bool;
  runtime_lock : bool
}.

(** A slot of the type array: fresh heap memory that has not been written
    ([Uninit]), a stored [NULL], or a stored pointer to a type. *)
Inductive slot : Type :=
  | Uninit
  | Null
  | Ptr (t : ffi_type).

(** What [ffi_prep_cif] records in the call interface structure. *)
Record ffi_cif : Type := mk_cif {
  cif_abi : Z;
  nargs : Z;
  cif_rtype : ffi_type;
  cif_arg_types : list slot
}.

(** [args] is the heap array of [capacity] type pointers.  [cif] is [None]
    for [NULL]. *)
Record callspec : Type := mk_callspec {
  bytes : Z;
  nelements : Z;
  capacity : Z;
  max_align : Z;
  state : callspec_state;
  args : list slot;
  roffset : Z;
  context : call_context;
  cif : option ffi_cif
}.

Definition callspec_prototype : callspec :=
  {| bytes := 0; nelements := 0; capacity := 0; max_align := 0;
     state := BUILDING; args := []; roffset := to_size_t (-1);
     context := {| check_errno := false; runtime_lock := false |};
     cif := None |}.

Definition set_bytes (v : Z) (c : callspec) : callspec :=
  mk_callspec v (nelements c) (capacity c) (max_align c) (state c) (args c)
              (roffset c) (context c) (cif c).
Definition set_nelements (v : Z) (c : callspec) : callspec :=
  mk_callspec (bytes c) v (capacity c) (max_align c) (state c) (args c)
              (roffset c) (context c) (cif c).
Definition set_capacity (v : Z) (c : callspec) : callspec :=
  mk_callspec (bytes c) (nelements c) v (max_align c) (state c) (args c)
              (roffset c) (context c) (cif c).
Definition set_max_align (v : Z) (c : callspec) : callspec :=
  mk_callspec (bytes c) (nelements c) (capacity c) v (state c) (args c)
              (roffset c) (context c) (cif c).
Definition set_state (v : callspec_state) (c : callspec) : callspec :=
  mk_callspec (bytes c) (nelements c) (capacity c) (max_align c) v (args c)
              (roffset c) (context c) (cif c).
Definition set_args (v : list slot) (c : callspec) : callspec :=
  mk_callspec (bytes c) (nelements c) (capacity c) (max_align c) (state c) v
              (roffset c) (context c) (cif c).
Definition set_roffset (v : Z) (c : callspec) : callspec :=
  mk_callspec (bytes c) (nelements c) (capacity c) (max_align c) (state c)
              (args c) v (context c) (cif c).
Definition set_context (v : call_context) (c : callspec) : callspec :=
  mk_callspec (bytes c) (nelements c) (capacity c) (max_align c) (state c)
              (args c) (roffset c) v (cif c).
Definition set_cif (v : option ffi_cif) (c : callspec) : callspec :=
  mk_callspec (bytes c) (nelements c) (capacity c) (max_align c) (state c)
              (args c) (roffset c) (context c) v.

(** [caml_stat_resize]: the block keeps its prefix and is cut or extended to
    [n] slots; the fresh slots are uninitialised. *)
Definition caml_stat_resize (a : list slot) (n : Z) : list slot :=
  take (Z.to_nat n) a ++ replicate (Z.to_nat n - length a)%nat Uninit.

(** [a[i] = v] on the heap array; a store outside the block is a fault. *)
Definition store_arg (i : Z) (v : slot) : M callspec unit :=
  let* c := get in
  if (0 <=? i) && (i <? Z.of_nat (length (args c)))
  then modify (set_args (<[Z.to_nat i := v]> (args c)))
  else crash Wild_access.

(** ** ctypes_allocate_callspec *)

Definition ctypes_allocate_callspec (check_errno runtime_lock : bool)
  : callspec :=
  set_context {| check_errno := check_errno; runtime_lock := runtime_lock |}
              callspec_prototype.

(** ** ctypes_add_argument *)

Definition increment_size : Z := 8.

Definition ctypes_add_argument (argtype : ffi_type) : M callspec Z :=
  let* callspec := get in
  assert_ (callspec_state_eqb (state callspec) BUILDING) >>
  let offset := to_int (aligned_offset (bytes callspec) (alignment argtype)) in
  modify (set_bytes (to_size_t (offset + size argtype))) >>
  (if to_size_t (nelements callspec + 2) >=? capacity callspec
   then
     modify (fun c =>
       set_args (caml_stat_resize (args c) (capacity c + increment_size)) c) >>
     modify (fun c => set_capacity (to_size_t (capacity c + increment_size)) c)
   else ret tt) >>
  store_arg (nelements callspec) (Ptr argtype) >>
  store_arg (nelements callspec + 1) Null >>
  modify (set_nelements (to_size_t (nelements callspec + 1))) >>
  modify (fun c =>
    set_max_align (if alignment argtype >? max_align c
                   then alignment argtype
                   else max_align c) c) >>
  ret offset.

(** ** ctypes_check_ffi_status and ctypes_prep_callspec *)

Inductive ffi_status : Type :=
  | FFI_OK
  | FFI_BAD_TYPEDEF
  | FFI_BAD_ABI
  | FFI_unknown (n : Z).

Definition ctypes_check_ffi_status {S} (status : ffi_status) : M S unit :=
  match status with
  | FFI_OK => ret tt
  | FFI_BAD_TYPEDEF => raise (FFI_internal_error "FFI_BAD_TYPEDEF")
  | FFI_BAD_ABI => raise (FFI_internal_error "FFI_BAD_ABI")
  | FFI_unknown _ => crash Assert_failed
  end.

(** libffi's [ffi_prep_cif] is external: its verdict is the parameter
    [prep_status], a function of what the stub passes to it. *)
Definition ffi_prep_cif
    (prep_status : Z -> Z -> ffi_type -> list slot -> ffi_status)
    (abi n : Z) (rtype : ffi_type) (atypes : list slot)
  : M callspec ffi_status :=
  modify (set_cif (Some (mk_cif abi n rtype atypes))) >>
  ret (prep_status abi n rtype atypes).

Definition ctypes_prep_callspec
    (prep_status : Z -> Z -> ffi_type -> list slot -> ffi_status)
    (abi : Z) (rffitype : ffi_type) : M callspec unit :=
  modify (fun c =>
    set_roffset (aligned_offset (bytes c) (alignment rffitype)) c) >>
  modify (fun c => set_bytes (to_size_t (roffset c + size rffitype)) c) >>
  modify (fun c =>
    set_bytes (aligned_offset (bytes c) (alignment ffi_type_pointer)) c) >>
  modify (fun c => set_bytes (to_size_t (bytes c + size ffi_type_pointer)) c) >>
  let* c := get in
  let* status := ffi_prep_cif prep_status abi (nelements c) rffitype (args c) in
  ctypes_check_ffi_status status >>
  modify (set_state CALLSPEC).

(** ** Loops *)

(** [for (i = start; i < start + count; i++) body], the locals the body
    updates being threaded through as [l]. *)
Fixpoint for_loop {S L} (count start : nat) (body : nat -> L -> M S L) (l : L)
  : M S L :=
  match count with
  | O => ret l
  | Datatypes.S count' =>
      let* l' := body start l in
      for_loop count' (Datatypes.S start) body l'
  end.

(** ** compute_arg_buffer_size and populate_arg_array *)

(** Returns the buffer size and, for the out-parameter, the offset of the
    pointer array. *)
Definition compute_arg_buffer_size (callspec : callspec) : M unit (Z * Z) :=
  assert_ (callspec_state_eqb (state callspec) CALLSPEC) >>
  let bytes0 := bytes callspec in
  let arg_array_offset :=
    aligned_offset bytes0 (alignment ffi_type_pointer) in
  let bytes1 :=
    to_size_t (arg_array_offset
               + to_size_t (nelements callspec * sizeof_voidp)) in
  ret (bytes1, arg_array_offset).

(** The locals of the walk are the running [offset] and the pointer array
    being filled; reading a type slot that holds no type is a fault. *)
Definition populate_body (callspec : callspec) (callbuffer : Z)
    (i : nat) (l : Z * list Z) : M unit (Z * list Z) :=
  let '(offset, arg_array) := l in
  match args callspec !! i with
  | Some (Ptr t) =>
      let offset := aligned_offset offset (alignment t) in
      let arg_array := <[i := callbuffer + offset]> arg_array in
      ret (to_size_t (offset + size t), arg_array)
  | _ => crash Wild_access
  end.

(** The pointer array lives in uninitialised stack memory: its slots start
    as [0] here and are all written by the walk. *)
Definition populate_arg_array (callspec : callspec) (callbuffer : Z)
  : M unit (list Z) :=
  let n := Z.to_nat (nelements callspec) in
  let* l := for_loop n 0%nat (populate_body callspec callbuffer)
                     (0, replicate n 0) in
  ret (snd l).

(** ** The managed side, as the stubs see it *)

(** What the bridge passes to managed code: [Val_unit] or a boxed raw
    address.  [CTYPES_FROM_PTR] (from [ctypes_raw_pointer.h], which is not
    among the sources) boxes an address; it is the constructor [Val_ptr]
    here. *)
Inductive value : Type :=
  | Val_unit
  | Val_ptr (p : Z).

(** [type boxedfn = Done of (voidp -> unit) | Fn of (voidp -> boxedfn)],
    tags [enum boxedfn_tags { Done, Fn }]. *)
Inductive boxedfn : Type :=
  | Done (k : value -> unit)
  | Fn (k : value -> boxedfn).

(** Values the argument writer may leave in the first component of a
    pair: a block with [String_tag] at [addr], an immediate integer, or a
    block with any other tag. *)
Inductive ml_value : Type :=
  | ML_string (addr : Z)
  | ML_long (n : Z)
  | ML_other_block (addr : Z).

(** A field of the value array: the word [0], [Val_unit], or a pair
    [(arg_ptr, arg_offset)]. *)
Inductive arg_field : Type :=
  | Field_zero
  | Field_unit
  | Field_tuple (arg_ptr : ml_value) (arg_offset : Z).

(** ** The world of the engine and the bridge *)

Inductive event : Type :=
  | Ev_release_runtime
  | Ev_acquire_runtime
  | Ev_errno_reset
  | Ev_errno_saved (code : Z)
  | Ev_argwriter (buffer : Z)
  | Ev_ffi_call (fn return_slot : Z) (arg_array : list Z)
                (val_refs : list (option Z))
  | Ev_rvreader (return_slot : Z)
  | Ev_resolve (key : Z)
  | Ev_apply_Fn (arg : value)
  | Ev_apply_Done (arg : value).

Record world : Type := mk_world {
  errno : Z;
  runtime_held : bool;
  trace : list event;
  retrieve_closure_ : option (Z -> option boxedfn)
}.

Definition set_errno (v : Z) (w : world) : world :=
  mk_world v (runtime_held w) (trace w) (retrieve_closure_ w).
Definition set_runtime_held (v : bool) (w : world) : world :=
  mk_world (errno w) v (trace w) (retrieve_closure_ w).
Definition set_trace (v : list event) (w : world) : world :=
  mk_world (errno w) (runtime_held w) v (retrieve_closure_ w).
Definition set_retrieve_closure_ (v : option (Z -> option boxedfn))
    (w : world) : world :=
  mk_world (errno w) (runtime_held w) (trace w) v.

Definition log (e : event) : M world unit :=
  modify (fun w => set_trace (trace w ++ [e]) w).

Definition caml_release_runtime_system : M world unit :=
  modify (set_runtime_held false) >> log Ev_release_runtime.

Definition caml_acquire_runtime_system : M world unit :=
  modify (set_runtime_held true) >> log Ev_acquire_runtime.

(** [unix_error] raises with the C string it is given. *)
Definition unix_error {A} (code : Z) (cmdname : string) : M world A :=
  raise (Unix_error code cmdname).

(** [strcpy(buffer, String_val(s))]: what the buffer holds afterwards, the
    bytes of [s] before its first NUL byte. *)
Fixpoint strcpy (src : string) : string :=
  match src with
  | EmptyString => EmptyString
  | String c rest =>
      if Ascii.eqb c Ascii.zero then EmptyString else String c (strcpy rest)
  end.

(** A native function: its address (what [CTYPES_ADDR_OF_FATPTR], from
    [ctypes_raw_pointer.h], extracts from the fat pointer) and what running
    it does.  The body is given the return slot, the pointer array and the
    reference array the engine built. *)
Record native_fn : Type := mk_native {
  fn_addr : Z;
  fn_body : Z -> list Z -> list (option Z) -> M world unit
}.

(** libffi's [ffi_call]. *)
Definition ffi_call (cif : option ffi_cif) (fn : native_fn) (return_slot : Z)
    (arg_array : list Z) (val_refs : list (option Z)) : M world unit :=
  log (Ev_ffi_call (fn_addr fn) return_slot arg_array val_refs) >>
  fn_body fn return_slot arg_array val_refs.

(** ** ctypes_set_closure_callback and retrieve_closure *)

(** The registered resolver answers [None] when it raises. *)
Definition ctypes_set_closure_callback (retrieve : Z -> option boxedfn)
  : M world unit :=
  modify (set_retrieve_closure_ (Some retrieve)).

Definition retrieve_closure (key : Z) : M world boxedfn :=
  let* w := get in
  log (Ev_resolve key) >>
  match retrieve_closure_ w with
  | None => crash Wild_access
  | Some retrieve =>
      match retrieve key with
      | None => raise CallToExpiredClosure
      | Some result => ret result
      end
  end.

(** ** ctypes_call *)

(** The body of the loop over the value array; the locals are the pointer
    array and [val_refs]. *)
Definition handback_body (callback_val_arr : list arg_field)
    (val_refs_addr : Z) (arg_idx : nat)
    (l : list Z * list (option Z)) : M unit (list Z * list (option Z)) :=
  let '(arg_array, val_refs) := l in
  match callback_val_arr !! arg_idx with
  | None => crash Wild_access
  | Some Field_zero | Some Field_unit => ret l
  | Some (Field_tuple arg_ptr arg_offset) =>
      match arg_ptr with
      | ML_string addr =>
          let val_refs :=
            <[arg_idx := Some (addr + to_int arg_offset)]> val_refs in
          let arg_array :=
            <[arg_idx := val_refs_addr + sizeof_voidp * Z.of_nat arg_idx]>
              arg_array in
          ret (arg_array, val_refs)
      | _ => crash Assert_failed
      end
  end.

(** [callbuffer] and [val_refs_addr] are the addresses the two [alloca]
    calls return.  [argwriter buffer i] is field [i] of the value array
    once the writer has run; [rvreader] is the return reader. *)
Definition ctypes_call {A} (callbuffer val_refs_addr : Z)
    (fnname : string) (function : native_fn) (callspec : callspec)
    (argwriter : Z -> nat -> arg_field) (rvreader : Z -> A) : M world A :=
  let roffset := to_int (roffset callspec) in
  let context := context callspec in
  let nelements := nelements callspec in
  let cif := cif callspec in
  assert_ (callspec_state_eqb (state callspec) CALLSPEC) >>
  let* sz := pure (compute_arg_buffer_size callspec) in
  let arg_array_offset := snd sz in
  let return_slot := callbuffer + roffset in
  let* arg_array := pure (populate_arg_array callspec callbuffer) in
  log (Ev_argwriter callbuffer) >>
  let callback_val_arr :=
    argwriter callbuffer <$> seq 0 (Z.to_nat nelements) in
  let val_refs := replicate (Z.to_nat nelements) None in
  let* l := pure (for_loop (length callback_val_arr) 0%nat
                           (handback_body callback_val_arr val_refs_addr)
                           (arg_array, val_refs)) in
  let check_errno := check_errno context in
  (if runtime_lock context then caml_release_runtime_system else ret tt) >>
  (if check_errno then modify (set_errno 0) >> log Ev_errno_reset
   else ret tt) >>
  ffi_call cif function return_slot (fst l) (snd l) >>
  let* saved_errno :=
    (if check_errno
     then let* w := get in log (Ev_errno_saved (errno w)) >> ret (errno w)
     else ret 0) in
  (if runtime_lock context then caml_acquire_runtime_system else ret tt) >>
  (if check_errno && negb (saved_errno =? 0)
   then let buffer := strcpy fnname in unix_error saved_errno buffer
   else ret tt) >>
  log (Ev_rvreader return_slot) >>
  ret (rvreader return_slot).

(** ** Closures and callback_handler *)

Record closure : Type := mk_closure {
  fnkey : Z;
  closure_context : call_context
}.

(** [assert (Tag_val(boxedfn) == Fn); caml_callback(Field(boxedfn, 0), v)] *)
Definition call_Fn (b : boxedfn) (v : value) : M world boxedfn :=
  match b with
  | Fn k => log (Ev_apply_Fn v) >> ret (k v)
  | Done _ => crash Assert_failed
  end.

(** [assert (Tag_val(boxedfn) == Done); caml_callback(Field(boxedfn, 0), v)] *)
Definition call_Done (b : boxedfn) (v : value) : M world unit :=
  match b with
  | Done k => log (Ev_apply_Done v) >> ret (k v)
  | Fn _ => crash Assert_failed
  end.

Definition callback_handler (cif : ffi_cif) (ret_slot : Z) (cargs : list Z)
    (closure : closure) : M world unit :=
  (if runtime_lock (closure_context closure)
   then caml_acquire_runtime_system else ret tt) >>
  let* boxedfn := retrieve_closure (fnkey closure) in
  let arity := to_int (nargs cif) in
  let* boxedfn :=
    (if arity =? 0
     then call_Fn boxedfn Val_unit
     else for_loop (Z.to_nat arity) 0%nat
            (fun i boxedfn =>
               match cargs !! i with
               | Some cvalue => call_Fn boxedfn (Val_ptr cvalue)
               | None => crash Wild_access
               end)
            boxedfn) in
  call_Done boxedfn (Val_ptr ret_slot) >>
  (if runtime_lock (closure_context closure)
   then caml_release_runtime_system else ret tt) >>
  ret tt.

(** ** ctypes_make_function_pointer *)

(** A trampoline: the control block and the call interface libffi binds the
    generated code to; running it enters [callback_handler]. *)
Record trampoline : Type := mk_trampoline {
  code_address : Z;
  tr_closure : closure;
  tr_cif : ffi_cif
}.

(** [ffi_closure_alloc] answers [None] when executable memory runs out;
    [prep_status] is the verdict of [ffi_prep_closure_loc]. *)
Definition ctypes_make_function_pointer {S}
    (ffi_closure_alloc : option Z) (prep_status : ffi_status)
    (callspec : callspec) (fnid : Z) : M S trampoline :=
  assert_ (callspec_state_eqb (state callspec) CALLSPEC) >>
  match ffi_closure_alloc with
  | None => raise Out_of_memory
  | Some code_address =>
      let closure :=
        {| fnkey := to_int fnid; closure_context := context callspec |} in
      match cif callspec with
      | None => crash Wild_access
      | Some cif =>
          ctypes_check_ffi_status prep_status >>
          ret (mk_trampoline code_address closure cif)
      end
  end.

Definition invoke_trampoline (t : trampoline) (ret_slot : Z) (cargs : list Z)
  : M world unit :=
  callback_handler (tr_cif t) ret_slot cargs (tr_closure t).

(** ** Driving the builder *)

(** Successive [ctypes_add_argument] calls for a list of types, collecting
    the offsets handed back to the caller. *)
Fixpoint add_arguments (ts : list ffi_type) : M callspec (list Z) :=
  match ts with
  | [] => ret []
  | t :: ts' =>
      let* o := ctypes_add_argument t in
      let* os := add_arguments ts' in
      ret (o :: os)
  end.

(** A prepare verdict that accepts everything. *)
Definition prep_ok (_ _ : Z) (_ : ffi_type) (_ : list slot)
  : ffi_status := FFI_OK.

(** The shape the type array has between two calls of the builder: [args]
    has [capacity] slots, the terminator of a non-empty list is inside the
    block, at most one chunk is spare, and the counters are far from
    wrapping around. *)
Definition builder_inv (c : callspec) : Prop :=
  Z.of_nat (length (args c)) = capacity c /\
  0 <= nelements c /\
  (nelements c = 0 /\ capacity c = 0 \/ nelements c + 2 <= capacity c) /\
  capacity c <= nelements c + 9 /\
  nelements c + 17 <= SIZE_MAX.

(** Capacity and type array after one append. *)
Definition grown (c : callspec) : bool :=
  to_size_t (nelements c + 2) >=? capacity c.

Definition capacity_after (c : callspec) : Z :=
  if grown c then capacity c + increment_size else capacity c.

Definition args_after (t : ffi_type) (c : callspec) : list slot :=
  <[Z.to_nat (nelements c + 1) := Null]>
    (<[Z.to_nat (nelements c) := Ptr t]>
       (if grown c
        then args c ++ replicate (Z.to_nat increment_size) Uninit
        else args c)).

(** ** The specification's vocabulary *)

(** The alignment rule in the specification's words: the offset itself if it
    is a multiple of the alignment, else the next multiple. *)
Definition alignUp (offset alignment : Z) : Z :=
  if offset mod alignment =? 0
  then offset
  else (offset / alignment + 1) * alignment.

(** Offsets of a list of types laid out from [start], and the first byte
    after them, by the specification's rule on unbounded integers. *)
Fixpoint layout (start : Z) (ts : list ffi_type) : list Z * Z :=
  match ts with
  | [] => ([], start)
  | t :: ts' =>
      let o := alignUp start (alignment t) in
      let r := layout (o + size t) ts' in
      (o :: fst r, snd r)
  end.

(** The call-buffer size in the specification's words: the aligned argument
    segments, the return slot, one pointer-sized pad, rounded to pointer
    alignment, and one pointer-sized slot per argument. *)
Definition spec_call_buffer_size (ts : list ffi_type) (rtype : ffi_type) : Z :=
  let segments := snd (layout 0 ts) in
  let with_return := alignUp segments (alignment rtype) + size rtype in
  alignUp (with_return + size ffi_type_pointer) (alignment ffi_type_pointer)
  + Z.of_nat (length ts) * sizeof_voidp.

(** Three successive capacities form a geometric progression when they
    have a common ratio. *)
Definition geometric (c0 c1 c2 : Z) : Prop := c1 * c1 = c0 * c2.

(** ** Reading traces *)

Definition when {A} (b : bool) (l : list A) : list A := if b then l else [].

(** The runtime lock as a two-state machine run over a trace: releasing
    needs the lock held, acquiring needs it free; [None] is a misuse. *)
Fixpoint lock_run (held : bool) (t : list event) : option bool :=
  match t with
  | [] => Some held
  | Ev_release_runtime :: t' => if held then lock_run false t' else None
  | Ev_acquire_runtime :: t' => if held then None else lock_run true t'
  | _ :: t' => lock_run held t'
  end.

(** A stretch of the trace is balanced from [held] when every lock
    operation in it is legal and the lock ends as it started. *)
Definition lock_balanced (held : bool) (t : list event) : Prop :=
  lock_run held t = Some held.

Definition is_lock_event (e : event) : bool :=
  match e with
  | Ev_release_runtime | Ev_acquire_runtime => true
  | _ => false
  end.

Definition is_application (e : event) : bool :=
  match e with
  | Ev_apply_Fn _ | Ev_apply_Done _ => true
  | _ => false
  end.

(** The applications among the events of a trace, in order. *)
Definition applications (t : list event) : list event :=
  List.filter is_application t.

(** Following a managed chain through a list of arguments: [None] when a
    result step comes too early. *)
Fixpoint chain_after (b : boxedfn) (vs : list value) {struct vs}
  : option boxedfn :=
  match vs with
  | [] => Some b
  | v :: vs' =>
      match b with
      | Fn k => chain_after (k v) vs'
      | Done _ => None
      end
  end.

(** The engine's view of one invocation: the events [ctypes_call] leaves
    when the native function leaves [events] and the error code [e], the
    dispatch having been given the return slot [slot], the pointer array
    [arr] and the reference array [refs]. *)
Definition call_events (cx : call_context) (cb fn slot : Z) (arr : list Z)
    (refs : list (option Z)) (events : list event) (e : Z) : list event :=
  [Ev_argwriter cb]
  ++ when (runtime_lock cx) [Ev_release_runtime]
  ++ when (check_errno cx) [Ev_errno_reset]
  ++ [Ev_ffi_call fn slot arr refs]
  ++ events
  ++ when (check_errno cx) [Ev_errno_saved e]
  ++ when (runtime_lock cx) [Ev_acquire_runtime]
  ++ when (negb (check_errno cx && negb (e =? 0))) [Ev_rvreader slot].

(** The values [callback_handler] feeds the managed chain before the
    result step: [Val_unit] when the call interface has no argument, else
    the first [nargs] native argument addresses, boxed. *)
Definition bridge_arguments (cif : ffi_cif) (cargs : list Z) : list value :=
  if to_int (nargs cif) =? 0
  then [Val_unit]
  else Val_ptr <$> take (Z.to_nat (to_int (nargs cif))) cargs.

(** The events one completed run of the bridge leaves. *)
Definition bridge_events (cx : call_context) (key ret_slot : Z)
    (vs : list value) : list event :=
  when (runtime_lock cx) [Ev_acquire_runtime]
  ++ [Ev_resolve key]
  ++ (Ev_apply_Fn <$> vs)
  ++ [Ev_apply_Done (Val_ptr ret_slot)]
  ++ when (runtime_lock cx) [Ev_release_runtime].

(** A native function that returns: it leaves [events] in the trace and
    turns the error code [e] it finds into [errno_after e]. *)
Definition native_behaves (fn : native_fn) (errno_after : Z -> Z)
    (events : list event) : Prop :=
  forall return_slot arg_array val_refs w,
    fn_body fn return_slot arg_array val_refs w =
    (Val tt, set_trace (trace w ++ events) (set_errno (errno_after (errno w)) w)).

(** The first [nelements] slots of the type array hold types. *)
Definition args_filled (c : callspec) : Prop :=
  forall i, (i < Z.to_nat (nelements c))%nat ->
            exists t, args c !! i = Some (Ptr t).

(** The writer handed back nothing but strings. *)
Definition field_ok (f : arg_field) : bool :=
  match f with
  | Field_tuple (ML_string _) _ => true
  | Field_tuple _ _ => false
  | _ => true
  end.

(** ** Sample data *)

Definition int32_t : ffi_type := {| size := 4; alignment := 4 |}.
Definition double_t : ffi_type := {| size := 8; alignment := 8 |}.
Definition char_t : ffi_type := {| size := 1; alignment := 1 |}.
(** A by-value aggregate of 2 GiB. *)
Definition huge_t : ffi_type := {| size := 2 ^ 31; alignment := 1 |}.

Definition fresh : callspec := ctypes_allocate_callspec false false.

(** The specification built from [ts] and prepared for [rtype]. *)
Definition built (ts : list ffi_type) (rtype : ffi_type)
  : outcome unit * callspec :=
  (add_arguments ts >> ctypes_prep_callspec prep_ok 0 rtype) fresh.

(** A native function that sets the error code to [e] and nothing else. *)
Definition sets_errno (e : Z) : native_fn :=
  {| fn_addr := 4198400;
     fn_body := fun _ _ _ => modify (set_errno e) |}.

Definition no_handback (_ : Z) (_ : nat) : arg_field := Field_unit.

(** A native function that leaves the error code alone. *)
Definition quiet_fn : native_fn :=
  {| fn_addr := 4198400; fn_body := fun _ _ _ => ret tt |}.

(** A writer that hands back, for every argument, the string at 65536 with
    offset 3. *)
Definition string_handback (_ : Z) (_ : nat) : arg_field :=
  Field_tuple (ML_string 65536) 3.

(** A prepared specification with one pointer argument, with and without
    the flags set. *)
Definition pointer_spec : callspec :=
  snd (built [ffi_type_pointer] int32_t).

Definition checked_locked_spec : callspec :=
  set_context {| check_errno := true; runtime_lock := true |} pointer_spec.

(** Managed chains: the result step alone, one step then the result, two
    steps then the result. *)
Definition write_result (_ : value) : unit := tt.
Definition result_only : boxedfn := Done write_result.
Definition thunk_chain : boxedfn := Fn (fun _ => Done write_result).
Definition binary_chain : boxedfn :=
  Fn (fun _ => Fn (fun _ => Done write_result)).

Definition cif_of_arity (n : Z) : ffi_cif := mk_cif 0 n int32_t [].

Definition locked_closure : closure :=
  {| fnkey := 7;
     closure_context := {| check_errno := false; runtime_lock := true |} |}.

Definition trampoline_of_arity (n : Z) : trampoline :=
  {| code_address := 8392704; tr_closure := locked_closure;
     tr_cif := cif_of_arity n |}.

(** A world entered from native code (the lock is not held) whose resolver
    answers [b] for every key, and one whose resolver raises. *)
Definition world_resolving (b : boxedfn) : world :=
  {| errno := 0; runtime_held := false; trace := [];
     retrieve_closure_ := Some (fun _ => Some b) |}.

Definition expired_world : world :=
  {| errno := 0; runtime_held := false; trace := [];
     retrieve_closure_ := Some (fun _ => None) |}.

(** A specification under construction whose running size has reached
    2 GiB. *)
Definition after_huge : callspec := snd (add_arguments [huge_t] fresh).

(** Native code that calls back into managed code through a two-argument
    trampoline before it returns. *)
Definition reentrant_fn : native_fn :=
  {| fn_addr := 4202496;
     fn_body := fun _ _ _ =>
       callback_handler (cif_of_arity 2) 512 [256; 264] locked_closure |}.

(** A world entered from managed code (the lock is held) whose resolver
    answers [b] for every key, and one whose resolver raises. *)
Definition managed_world (b : boxedfn) : world :=
  {| errno := 0; runtime_held := true; trace := [];
     retrieve_closure_ := Some (fun _ => Some b) |}.

Definition managed_world_expired : world :=
  {| errno := 0; runtime_held := true; trace := [];
     retrieve_closure_ := Some (fun _ => None) |}.

Definition world0 : world :=
  {| errno := 0; runtime_held := true; trace := [];
     retrieve_closure_ := None |}.

(** ** Preconditions of an invocation *)

(** A name that is a C string as it stands: it holds no NUL byte. *)
Fixpoint no_nul (s : string) : bool :=
  match s with
  | EmptyString => true
  | String c rest => negb (Ascii.eqb c Ascii.zero) && no_nul rest
  end.

(** The types in the first [nelements] slots have a positive alignment
    (the walk divides by it). *)
Definition args_aligned (c : callspec) : Prop :=
  forall i t, (i < Z.to_nat (nelements c))%nat ->
              args c !! i = Some (Ptr t) -> 0 < alignment t.




(** ** Further vocabulary *)

(** The largest alignment among [m] and the types of [ts]. *)
Definition max_alignment (m : Z) (ts : list ffi_type) : Z :=
  fold_left (fun m t => Z.max m (alignment t)) ts m.

(** The capacity the chunked growth has reached once the type list holds
    [n] elements. *)
Definition capacity_for (n : Z) : Z :=
  if n =? 0 then 0
  else increment_size * ((n + 1) / increment_size + 1).

(** Prepare verdicts that reject everything. *)
Definition prep_bad_typedef (_ _ : Z) (_ : ffi_type)
    (_ : list slot) : ffi_status := FFI_BAD_TYPEDEF.
Definition prep_bad_abi (_ _ : Z) (_ : ffi_type)
    (_ : list slot) : ffi_status := FFI_BAD_ABI.

(** The specification allocated with the given flags, built from [ts] and
    prepared for [rtype]. *)
Definition built_with (cerr lock : bool) (ts : list ffi_type)
    (rtype : ffi_type) : outcome unit * callspec :=
  (add_arguments ts >> ctypes_prep_callspec prep_ok 0 rtype)
    (ctypes_allocate_callspec cerr lock).

(** A writer that hands back an integer where a string is expected. *)
Definition int_handback (_ : Z) (_ : nat) : arg_field :=
  Field_tuple (ML_long 5) 0.

(** A chain that is one step longer than two arguments. *)
Definition ternary_chain : boxedfn :=
  Fn (fun _ => Fn (fun _ => Fn (fun _ => Done write_result))).

(** * Properties *)

(** ** Machine arithmetic *)

Lemma to_size_t_small x : 0 <= x <= SIZE_MAX -> to_size_t x = x.
Proof. unfold to_size_t, SIZE_MAX. intros H. apply Z.mod_small. lia. Qed.

Lemma to_int_small x : INT_MIN <= x <= INT_MAX -> to_int x = x.
Proof.
  unfold to_int, INT_MIN, INT_MAX. intros H.
  rewrite Z.mod_small by lia. lia.
Qed.

Lemma to_int_range x : INT_MIN <= to_int x <= INT_MAX.
Proof.
  unfold to_int, INT_MIN, INT_MAX.
  pose proof (Z.mod_pos_bound (x + 2 ^ 31) (2 ^ 32) ltac:(lia)). lia.
Qed.

Lemma to_int_large x : INT_MAX < x -> to_int x <> x.
Proof. pose proof (to_int_range x). lia. Qed.

Lemma to_int_congruent x : exists k, to_int x = x - k * 2 ^ 32.
Proof.
  exists ((x + 2 ^ 31) / 2 ^ 32). unfold to_int.
  rewrite Z.mod_eq by lia. lia.
Qed.

(** ** The alignment rule *)

Lemma alignUp_bounds x a :
  0 < a -> x <= alignUp x a < x + a.
Proof.
  intros Ha. unfold alignUp.
  pose proof (Z.mod_pos_bound x a Ha).
  pose proof (Z.div_mod x a ltac:(lia)).
  destruct (Z.eqb_spec (x mod a) 0); nia.
Qed.

Lemma alignUp_multiple x a : 0 < a -> alignUp x a mod a = 0.
Proof.
  intros Ha. unfold alignUp.
  destruct (Z.eqb_spec (x mod a) 0); [assumption|].
  apply Z.mod_mul. lia.
Qed.

Lemma alignUp_idempotent x a : 0 < a -> alignUp (alignUp x a) a = alignUp x a.
Proof.
  intros Ha. unfold alignUp at 1.
  rewrite alignUp_multiple by assumption. reflexivity.
Qed.

(** [aligned_offset] computes the specification's [alignUp] whenever the
    result is representable. *)
Lemma aligned_offset_alignUp x a :
  0 < a -> 0 <= x -> alignUp x a <= SIZE_MAX ->
  aligned_offset x a = alignUp x a.
Proof.
  intros Ha Hx Hfit. unfold aligned_offset. unfold alignUp in *.
  pose proof (Z.mod_pos_bound x a Ha).
  pose proof (Z.div_mod x a ltac:(lia)).
  destruct (Z.eqb_spec (x mod a) 0); [reflexivity|].
  rewrite to_size_t_small by nia. nia.
Qed.

Lemma alignUp_pointer_multiple x :
  x mod 8 = 0 -> alignUp x 8 = x.
Proof. intros H. unfold alignUp. rewrite H. reflexivity. Qed.

(** ** Running monadic code *)

Lemma bind_val {S A B} (c : M S A) (k : A -> M S B) s a s' :
  c s = (Val a, s') -> bind c k s = k a s'.
Proof. intros H. unfold bind. rewrite H. reflexivity. Qed.

Lemma bind_exn {S A B} (c : M S A) (k : A -> M S B) s e s' :
  c s = (Exn e, s') -> bind c k s = (Exn e, s').
Proof. intros H. unfold bind. rewrite H. reflexivity. Qed.

Lemma bind_fault {S A B} (c : M S A) (k : A -> M S B) s f s' :
  c s = (Fault f, s') -> bind c k s = (Fault f, s').
Proof. intros H. unfold bind. rewrite H. reflexivity. Qed.

Lemma pure_val {S A} (c : M unit A) a (s : S) :
  c tt = (Val a, tt) -> pure c s = (Val a, s).
Proof. intros H. unfold pure. rewrite H. reflexivity. Qed.

(** The invariant rule for [for_loop]: an invariant the body preserves
    without failing holds after the loop. *)
Lemma for_loop_invariant {S L} (I : nat -> L -> Prop)
    (body : nat -> L -> M S L) (s : S) :
  forall count start l,
    I start l ->
    (forall i l0, (start <= i < start + count)%nat -> I i l0 ->
                  exists l1, body i l0 s = (Val l1, s) /\ I (Datatypes.S i) l1) ->
    exists l', for_loop count start body l s = (Val l', s) /\
               I (start + count)%nat l'.
Proof.
  induction count as [|count IH]; intros start l HI Hbody.
  - exists l. rewrite Nat.add_0_r. split; [reflexivity | assumption].
  - destruct (Hbody start l ltac:(lia) HI) as (l1 & Hrun & HI1).
    destruct (IH (Datatypes.S start) l1 HI1) as (l' & Hloop & HI').
    { intros i l0 Hi. apply Hbody. lia. }
    exists l'. split.
    + simpl. rewrite (bind_val _ _ _ _ _ Hrun). exact Hloop.
    + replace (start + Datatypes.S count)%nat
        with (Datatypes.S start + count)%nat by lia. exact HI'.
Qed.

(** ** The builder *)

Lemma fresh_inv cerr lock : builder_inv (ctypes_allocate_callspec cerr lock).
Proof. unfold builder_inv, SIZE_MAX, increment_size. simpl. lia. Qed.

Lemma caml_stat_resize_grow (a : list slot) (cap : Z) :
  Z.of_nat (length a) = cap ->
  caml_stat_resize a (cap + increment_size)
  = a ++ replicate (Z.to_nat increment_size) Uninit.
Proof.
  intros H. unfold caml_stat_resize, increment_size.
  rewrite take_ge by lia. f_equal. f_equal. lia.
Qed.

Lemma grown_spec c :
  builder_inv c -> grown c = (nelements c + 2 >=? capacity c).
Proof.
  intros (Hlen & Hn & Hcap & Hspare & Hmax). unfold grown.
  rewrite to_size_t_small; [reflexivity|].
  unfold SIZE_MAX, increment_size in *. lia.
Qed.

Lemma args_after_length t c :
  builder_inv c -> Z.of_nat (length (args_after t c)) = capacity_after c.
Proof.
  intros Hinv. destruct (Hinv) as (Hlen & Hn & Hcap & Hspare & Hmax).
  unfold args_after, capacity_after.
  rewrite !length_insert. destruct (grown c).
  - rewrite length_app, length_replicate. unfold increment_size in *. lia.
  - assumption.
Qed.

(** Projections of updated specifications. *)
Ltac callspec_simpl :=
  cbn [bytes nelements capacity max_align state args roffset context cif
       set_bytes set_nelements set_capacity set_max_align set_state
       set_args set_roffset set_context set_cif].

Ltac callspec_simpl_all :=
  cbn [bytes nelements capacity max_align state args roffset context cif
       set_bytes set_nelements set_capacity set_max_align set_state
       set_args set_roffset set_context set_cif] in *.

Ltac callspec_unfold :=
  unfold set_bytes, set_nelements, set_capacity, set_max_align, set_state,
    set_args, set_roffset, set_context, set_cif;
  callspec_simpl.

Ltac in_range :=
  symmetry; apply andb_true_iff; split;
  [apply Z.leb_le | apply Z.ltb_lt]; unfold increment_size in *; lia.

(** What one append does, as an equation: the returned offset and the
    specification afterwards. *)
Lemma ctypes_add_argument_run t c :
  state c = BUILDING -> builder_inv c ->
  let offset := to_int (aligned_offset (bytes c) (alignment t)) in
  ctypes_add_argument t c =
  (Val offset,
   mk_callspec (to_size_t (offset + size t))
               (nelements c + 1)
               (capacity_after c)
               (if alignment t >? max_align c then alignment t
                else max_align c)
               BUILDING
               (args_after t c)
               (roffset c) (context c) (cif c)).
Proof.
  intros Hst Hinv offset.
  pose proof (grown_spec c Hinv) as Hg.
  destruct Hinv as (Hlen & Hn & Hcap & Hspare & Hmax).
  unfold ctypes_add_argument, capacity_after, args_after.
  cbv [bind get assert_ ret].
  rewrite Hst. cbv [callspec_state_eqb].
  unfold grown in *.
  destruct (to_size_t (nelements c + 2) >=? capacity c) eqn:Hgrow.
  - symmetry in Hg. apply Z.geb_le in Hg.
    cbv [bind modify ret store_arg get crash]. callspec_simpl.
    rewrite (caml_stat_resize_grow _ _ Hlen).
    rewrite length_app, length_replicate.
    replace ((0 <=? nelements c) &&
             (nelements c <? Z.of_nat (length (args c) + Z.to_nat increment_size)))
      with true by in_range.
    callspec_simpl. rewrite length_insert, length_app, length_replicate.
    replace ((0 <=? nelements c + 1) &&
             (nelements c + 1 <?
              Z.of_nat (length (args c) + Z.to_nat increment_size)))
      with true by in_range.
    callspec_unfold. rewrite Hst.
    rewrite (to_size_t_small (nelements c + 1)),
      (to_size_t_small (capacity c + increment_size))
      by (unfold SIZE_MAX, increment_size in *; lia).
    reflexivity.
  - symmetry in Hg. rewrite Z.geb_leb in Hg. apply Z.leb_gt in Hg.
    cbv [bind modify ret store_arg get crash]. callspec_simpl.
    replace ((0 <=? nelements c) &&
             (nelements c <? Z.of_nat (length (args c))))
      with true by in_range.
    callspec_simpl. rewrite length_insert.
    replace ((0 <=? nelements c + 1) &&
             (nelements c + 1 <? Z.of_nat (length (args c))))
      with true by in_range.
    callspec_unfold. rewrite Hst.
    rewrite (to_size_t_small (nelements c + 1))
      by (unfold SIZE_MAX, increment_size in *; lia).
    reflexivity.
Qed.

(** The invariant survives an append. *)
Lemma builder_inv_after t c b ma st ro cx ci :
  builder_inv c -> nelements c + 18 <= SIZE_MAX ->
  builder_inv (mk_callspec b (nelements c + 1) (capacity_after c) ma st
                           (args_after t c) ro cx ci).
Proof.
  intros Hinv Hroom. pose proof (args_after_length t c Hinv) as Hlen'.
  pose proof (grown_spec c Hinv) as Hg.
  destruct Hinv as (Hlen & Hn & Hcap & Hspare & Hmax).
  unfold builder_inv. callspec_simpl. split; [exact Hlen'|].
  unfold capacity_after, increment_size in *. rewrite Hg.
  destruct (Z.geb_spec (nelements c + 2) (capacity c)); lia.
Qed.

(** The appended type sits at index [nelements], followed by the
    terminator, and the types before it are untouched. *)
Lemma args_after_lookup t c :
  builder_inv c ->
  args_after t c !! Z.to_nat (nelements c) = Some (Ptr t) /\
  args_after t c !! Z.to_nat (nelements c + 1) = Some Null /\
  (forall i, (i < Z.to_nat (nelements c))%nat ->
             args_after t c !! i = args c !! i).
Proof.
  intros Hinv. pose proof (grown_spec c Hinv) as Hg.
  destruct Hinv as (Hlen & Hn & Hcap & Hspare & Hmax).
  unfold args_after. rewrite Hg.
  assert (Hgrow : nelements c + 2 >= capacity c \/
                  nelements c + 2 < capacity c) by lia.
  destruct Hgrow as [Hgrow | Hgrow].
  - replace (nelements c + 2 >=? capacity c) with true
      by (symmetry; apply Z.geb_le; lia).
    split; [|split].
    + rewrite list_lookup_insert_ne by lia.
      apply list_lookup_insert_eq.
      rewrite length_app, length_replicate. unfold increment_size. lia.
    + apply list_lookup_insert_eq.
      rewrite length_insert, length_app, length_replicate.
      unfold increment_size. lia.
    + intros i Hi. rewrite !list_lookup_insert_ne by lia.
      destruct Hcap as [[Hn0 Hc0] | Hcap]; [lia|].
      apply lookup_app_l. lia.
  - replace (nelements c + 2 >=? capacity c) with false
      by (symmetry; rewrite Z.geb_leb; apply Z.leb_gt; lia).
    split; [|split].
    + rewrite list_lookup_insert_ne by lia.
      apply list_lookup_insert_eq. lia.
    + apply list_lookup_insert_eq. rewrite length_insert. lia.
    + intros i Hi. rewrite !list_lookup_insert_ne by lia. reflexivity.
Qed.

(** Appending to a prepared specification trips the assertion. *)
Lemma add_argument_prepared t c :
  state c = CALLSPEC -> ctypes_add_argument t c = (Fault Assert_failed, c).
Proof.
  intros Hst. unfold ctypes_add_argument. cbv [bind get].
  rewrite Hst. reflexivity.
Qed.

(** What [ctypes_prep_callspec] does when libffi accepts, as an equation;
    nothing in it looks at [state]. *)
Lemma ctypes_prep_callspec_run status abi rt c :
  status abi (nelements c) rt (args c) = FFI_OK ->
  let ro := aligned_offset (bytes c) (alignment rt) in
  ctypes_prep_callspec status abi rt c =
  (Val tt,
   mk_callspec
     (to_size_t
        (aligned_offset (to_size_t (ro + size rt))
                        (alignment ffi_type_pointer)
         + size ffi_type_pointer))
     (nelements c) (capacity c) (max_align c) CALLSPEC (args c) ro (context c)
     (Some (mk_cif abi (nelements c) rt (args c)))).
Proof.
  intros Hok ro. unfold ctypes_prep_callspec, ffi_prep_cif.
  cbv [bind modify get ret]. callspec_unfold. rewrite Hok.
  reflexivity.
Qed.

(** ** Laying out a list of types *)

Lemma layout_end_ge start ts :
  Forall ffi_type_ok ts -> start <= snd (layout start ts).
Proof.
  intros Hok. revert start.
  induction Hok as [|t ts Ht _ IH]; intros start; simpl; [lia|].
  destruct Ht as (Hsz & Hal).
  pose proof (alignUp_bounds start (alignment t) ltac:(lia)).
  specialize (IH (alignUp start (alignment t) + size t)). lia.
Qed.

Lemma layout_length start ts : length (fst (layout start ts)) = length ts.
Proof. revert start. induction ts; intros; simpl; [|rewrite IHts]; reflexivity. Qed.

Lemma layout_snoc start ts t :
  layout start (ts ++ [t]) =
  (fst (layout start ts) ++ [alignUp (snd (layout start ts)) (alignment t)],
   alignUp (snd (layout start ts)) (alignment t) + size t).
Proof.
  revert start. induction ts as [|u ts IH]; intros start; simpl.
  - reflexivity.
  - rewrite IH. reflexivity.
Qed.

Lemma layout_take_end_le start ts i :
  Forall ffi_type_ok ts ->
  snd (layout start (take i ts)) <= snd (layout start ts).
Proof.
  intros Hok. revert start i.
  induction Hok as [|t ts Ht Hts IH]; intros start i.
  - rewrite take_nil. simpl. lia.
  - destruct i as [|i]; simpl.
    + pose proof (layout_end_ge (alignUp start (alignment t) + size t) ts Hts).
      destruct Ht as (Hsz & Hal).
      pose proof (alignUp_bounds start (alignment t) ltac:(lia)). lia.
    + apply IH.
Qed.

(** Within the range of [int] the builder hands back exactly the offsets of
    the specification's layout, starting from the running size. *)
Lemma add_arguments_layout ts :
  forall c,
    state c = BUILDING -> builder_inv c ->
    nelements c + Z.of_nat (length ts) + 17 <= SIZE_MAX ->
    Forall ffi_type_ok ts -> 0 <= bytes c ->
    snd (layout (bytes c) ts) <= INT_MAX ->
    exists c',
      add_arguments ts c = (Val (fst (layout (bytes c) ts)), c') /\
      bytes c' = snd (layout (bytes c) ts) /\
      nelements c' = nelements c + Z.of_nat (length ts) /\
      state c' = BUILDING /\ builder_inv c' /\
      context c' = context c /\
      (forall i, (i < Z.to_nat (nelements c))%nat ->
                 args c' !! i = args c !! i) /\
      (forall j t, ts !! j = Some t ->
                   args c' !! (Z.to_nat (nelements c) + j)%nat = Some (Ptr t)).
Proof.
  induction ts as [|t ts IH]; intros c Hst Hinv Hroom Hok Hb Hend.
  - exists c. simpl. rewrite Z.add_0_r.
    split_and!; try reflexivity; try assumption.
    intros j t Hj. rewrite lookup_nil in Hj. discriminate.
  - apply Forall_cons in Hok as [Ht Hts].
    simpl in Hend. simpl length in Hroom.
    pose proof Ht as (Hsz & Hal).
    pose proof (alignUp_bounds (bytes c) (alignment t) ltac:(lia)) as Hup.
    pose proof (layout_end_ge (alignUp (bytes c) (alignment t) + size t) ts Hts)
      as Hmono.
    assert (Hfit : alignUp (bytes c) (alignment t) <= SIZE_MAX)
      by (unfold INT_MAX, SIZE_MAX in *; lia).
    pose proof (ctypes_add_argument_run t c Hst Hinv) as Hrun.
    cbv zeta in Hrun.
    rewrite (aligned_offset_alignUp (bytes c) (alignment t)) in Hrun
      by (assumption || lia).
    rewrite to_int_small in Hrun by (unfold INT_MIN, INT_MAX in *; lia).
    rewrite to_size_t_small in Hrun
      by (unfold INT_MAX, SIZE_MAX in *; lia).
    set (c1 := mk_callspec _ _ _ _ _ _ _ _ _) in Hrun.
    assert (Hinv1 : builder_inv c1)
      by (apply builder_inv_after; [assumption | lia]).
    destruct (IH c1) as (c' & Hrest & Hbytes & Hn & Hst' & Hinv' & Hcx & Hold & Hnew);
      try assumption; try reflexivity.
    { subst c1. callspec_simpl. lia. }
    { subst c1. callspec_simpl. lia. }
    destruct (args_after_lookup t c Hinv) as (Hat & _ & Hbelow).
    destruct Hinv as (_ & Hn0 & _).
    exists c'. simpl. rewrite (bind_val _ _ _ _ _ Hrun).
    rewrite (bind_val _ _ _ _ _ Hrest).
    subst c1. callspec_simpl_all.
    split_and!; try assumption; try reflexivity.
    + rewrite Hn. lia.
    + intros i Hi. rewrite Hold by lia. apply Hbelow. exact Hi.
    + intros j u Hj. destruct j as [|j]; simpl in Hj.
      * injection Hj as <-. rewrite Nat.add_0_r.
        rewrite Hold by lia. exact Hat.
      * replace (Z.to_nat (nelements c) + Datatypes.S j)%nat
          with (Z.to_nat (nelements c + 1) + j)%nat by lia.
        apply Hnew. exact Hj.
Qed.

(** ** The engine's walk *)

(** The walk of [populate_arg_array] over a type array holding [ts] fills
    the pointer array with the buffer address plus the offsets of the
    specification's layout. *)
Lemma populate_arg_array_layout c cb ts :
  Z.to_nat (nelements c) = length ts ->
  (forall j t, ts !! j = Some t -> args c !! j = Some (Ptr t)) ->
  Forall ffi_type_ok ts ->
  snd (layout 0 ts) <= SIZE_MAX ->
  populate_arg_array c cb tt = (Val (Z.add cb <$> fst (layout 0 ts)), tt).
Proof.
  intros Hn Hargs Hok Hend. unfold populate_arg_array. rewrite Hn.
  set (n := length ts).
  destruct (for_loop_invariant
              (fun i (l : Z * list Z) =>
                 fst l = snd (layout 0 (take i ts)) /\
                 length (snd l) = n /\
                 take i (snd l) = (Z.add cb <$> fst (layout 0 (take i ts))))
              (populate_body c cb) tt n 0%nat (0, replicate n 0))
    as (l' & Hrun & Hoff & Hlen & Htake).
  - simpl. rewrite length_replicate. rewrite take_0. auto.
  - intros i [off arr] Hi (Hoff & Hlen & Htake). simpl in Hoff, Hlen, Htake.
    destruct (lookup_lt_is_Some_2 ts i ltac:(lia)) as [t Ht].
    pose proof (Hargs i t Ht) as Hslot.
    pose proof (proj1 (Forall_lookup _ _) Hok i t Ht) as (Hsz & Hal).
    pose proof (take_S_r ts i t Ht) as HtakeS.
    pose proof (layout_take_end_le 0 ts (Datatypes.S i) Hok) as Hle.
    rewrite HtakeS, layout_snoc in Hle. simpl in Hle.
    pose proof (layout_end_ge 0 (take i ts) (Forall_take _ _ _ Hok)) as Hge.
    rewrite <- Hoff in Hle, Hge.
    pose proof (alignUp_bounds off (alignment t) ltac:(lia)) as Hup.
    unfold populate_body. rewrite Hslot.
    rewrite aligned_offset_alignUp by lia.
    rewrite to_size_t_small by lia.
    eexists. split; [reflexivity|]. simpl.
    rewrite HtakeS, layout_snoc. simpl. rewrite <- Hoff.
    split; [reflexivity|]. split; [rewrite length_insert; exact Hlen|].
    rewrite (take_S_r _ _ (cb + alignUp off (alignment t)))
      by (apply list_lookup_insert_eq; lia).
    rewrite take_insert_ge by lia. rewrite Htake.
    rewrite fmap_app. reflexivity.
  - simpl in Hrun. rewrite (bind_val _ _ _ _ _ Hrun). unfold ret.
    rewrite take_ge in Htake by lia.
    rewrite take_ge in Htake by (subst n; lia).
    rewrite Htake. reflexivity.
Qed.

(** Below the range of [int] the two walks agree: the offsets the builder
    hands back are the ones the engine recomputes for the prepared
    specification. *)
Lemma builder_engine_offsets_agree ts rt cb :
  Forall ffi_type_ok ts ->
  Z.of_nat (length ts) + 17 <= SIZE_MAX ->
  snd (layout 0 ts) <= INT_MAX ->
  exists c0 c,
    add_arguments ts fresh = (Val (fst (layout 0 ts)), c0) /\
    built ts rt = (Val tt, c) /\
    nelements c = Z.of_nat (length ts) /\
    populate_arg_array c cb tt = (Val (Z.add cb <$> fst (layout 0 ts)), tt).
Proof.
  intros Hok Hlen Hend.
  destruct (add_arguments_layout ts fresh eq_refl (fresh_inv _ _))
    as (c0 & Hrun & Hbytes & Hn & Hst & Hinv & Hcx & _ & Hnew);
    [exact Hlen | exact Hok | simpl; lia | exact Hend |].
  pose proof (ctypes_prep_callspec_run prep_ok 0 rt c0 eq_refl) as Hprep.
  cbv zeta in Hprep.
  eexists c0, _. split; [exact Hrun|]. split.
  - unfold built. rewrite (bind_val _ _ _ _ _ Hrun). exact Hprep.
  - callspec_simpl. split; [exact Hn|].
    apply populate_arg_array_layout.
    + callspec_simpl. rewrite Hn. simpl. lia.
    + callspec_simpl. intros j t Hj. apply (Hnew j t Hj).
    + exact Hok.
    + unfold INT_MAX, SIZE_MAX in *. lia.
Qed.

(** ** Claims about the builder *)

(** C1 (defect in the code).  The claim asks that both appending to and
    preparing a Prepared specification be rejected.  [ctypes_add_argument]
    asserts [state == BUILDING] (lemma [add_argument_prepared]), but
    [ctypes_prep_callspec] never reads [state]: preparing a fresh
    specification for a 4-byte return type and then preparing it again
    succeeds both times, and the second call moves the return offset from 0
    to 16 and the size from 16 to 32. *)
Theorem prep_callspec_twice_accepted :
  exists c1 c2,
    ctypes_prep_callspec prep_ok 0 int32_t fresh = (Val tt, c1) /\
    state c1 = CALLSPEC /\ roffset c1 = 0 /\ bytes c1 = 16 /\
    ctypes_prep_callspec prep_ok 0 int32_t c1 = (Val tt, c2) /\
    state c2 = CALLSPEC /\ roffset c2 = 16 /\ bytes c2 = 32 /\
    ctypes_add_argument int32_t c1 = (Fault Assert_failed, c1).
Proof.
  eexists _, _. split; [vm_compute; reflexivity|].
  repeat (split; [vm_compute; reflexivity|]).
  vm_compute; reflexivity.
Qed.

(** C4 (defect in the code).  The claim asks that the engine's walk
    reproduce the offsets the builder returned for every list of types.
    For a 2 GiB aggregate followed by a [char] the builder, which keeps the
    offset in an [int], returns 0 and -2147483648, while
    [populate_arg_array], which walks in [size_t], places the arguments at
    0 and 2147483648.  (Lemma [builder_engine_offsets_agree] shows the two
    agree whenever the layout ends at or below [INT_MAX].) *)
Theorem builder_engine_offsets_diverge :
  exists c builder_offsets engine_offsets,
    fst (add_arguments [huge_t; char_t] fresh) = Val builder_offsets /\
    built [huge_t; char_t] int32_t = (Val tt, c) /\
    populate_arg_array c 0 tt = (Val engine_offsets, tt) /\
    builder_offsets = [0; -2147483648] /\
    engine_offsets = [0; 2147483648] /\
    builder_offsets <> engine_offsets.
Proof.
  eexists _, _, _. split; [vm_compute; reflexivity|].
  split; [vm_compute; reflexivity|].
  split; [vm_compute; reflexivity|].
  split; [reflexivity|]. split; [reflexivity|]. discriminate.
Qed.

(** C5, the claim as stated fails: the capacity does not grow
    geometrically.  Filling a fresh specification with [char]s, the
    capacity is 8 after the first append, 16 after the seventh and 24 after
    the fifteenth: successive capacities differ by the constant chunk 8 and
    have no common ratio. *)
Lemma add_argument_capacity_not_geometric :
  capacity (snd (add_arguments (repeat char_t 1) fresh)) = 8 /\
  capacity (snd (add_arguments (repeat char_t 6) fresh)) = 8 /\
  capacity (snd (add_arguments (repeat char_t 7) fresh)) = 16 /\
  capacity (snd (add_arguments (repeat char_t 14) fresh)) = 16 /\
  capacity (snd (add_arguments (repeat char_t 15) fresh)) = 24 /\
  ~ geometric 8 16 24.
Proof.
  repeat (split; [vm_compute; reflexivity|]).
  unfold geometric. lia.
Qed.

(** C5 (amended).  For a specification in state Building and a type whose
    aligned offset fits in an [int] (and whose end fits in a [size_t]),
    [ctypes_add_argument] returns [alignUp bytes alignment], leaves
    [bytes = offset + size], stores the type at the end of the type list
    without touching the earlier types, takes the maximum of the
    alignments, and grows the capacity by one chunk of 8 slots exactly when
    [nelements + 2 >= capacity], never shrinking it. *)
Theorem add_argument_layout_step c t :
  state c = BUILDING -> builder_inv c -> nelements c + 18 <= SIZE_MAX ->
  ffi_type_ok t -> 0 <= bytes c ->
  alignUp (bytes c) (alignment t) <= INT_MAX ->
  alignUp (bytes c) (alignment t) + size t <= SIZE_MAX ->
  exists c',
    ctypes_add_argument t c = (Val (alignUp (bytes c) (alignment t)), c') /\
    bytes c' = alignUp (bytes c) (alignment t) + size t /\
    nelements c' = nelements c + 1 /\
    args c' !! Z.to_nat (nelements c) = Some (Ptr t) /\
    (forall i, (i < Z.to_nat (nelements c))%nat ->
               args c' !! i = args c !! i) /\
    max_align c' = Z.max (max_align c) (alignment t) /\
    capacity c' = (if nelements c + 2 >=? capacity c
                   then capacity c + 8 else capacity c) /\
    capacity c <= capacity c' /\
    Z.of_nat (length (args c')) = capacity c' /\
    state c' = BUILDING /\ builder_inv c'.
Proof.
  intros Hst Hinv Hroom (Hsz & Hal) Hb Hint Hend.
  pose proof (alignUp_bounds (bytes c) (alignment t) ltac:(lia)) as Hup.
  pose proof (ctypes_add_argument_run t c Hst Hinv) as Hrun.
  cbv zeta in Hrun.
  rewrite (aligned_offset_alignUp (bytes c) (alignment t)) in Hrun
    by (assumption || unfold INT_MAX, SIZE_MAX in *; lia).
  rewrite to_int_small in Hrun by (unfold INT_MIN, INT_MAX in *; lia).
  rewrite to_size_t_small in Hrun by lia.
  destruct (args_after_lookup t c Hinv) as (Hat & _ & Hbelow).
  eexists. split; [exact Hrun|]. callspec_simpl.
  split_and!; try reflexivity; try assumption.
  - destruct (Z.gtb_spec (alignment t) (max_align c)); lia.
  - unfold capacity_after. rewrite (grown_spec c Hinv). reflexivity.
  - unfold capacity_after, increment_size. destruct (grown c); lia.
  - apply args_after_length. exact Hinv.
  - apply builder_inv_after; assumption.
Qed.

Lemma add_argument_layout_step_witness :
  exists c',
    ctypes_add_argument int32_t fresh = (Val 0, c') /\ bytes c' = 4.
Proof.
  destruct (add_argument_layout_step fresh int32_t)
    as (c' & Hrun & Hbytes & _).
  - reflexivity.
  - apply fresh_inv.
  - vm_compute. discriminate.
  - unfold ffi_type_ok. vm_compute. intuition discriminate.
  - vm_compute. discriminate.
  - vm_compute. discriminate.
  - vm_compute. discriminate.
  - exists c'. split; [exact Hrun | exact Hbytes].
Defined.

Lemma alignUp_add_alignment x a :
  0 < a -> alignUp (x + a) a = alignUp x a + a.
Proof.
  intros Ha. unfold alignUp.
  replace (x + a) with (x + 1 * a) by lia.
  rewrite Z_mod_plus_full, Z.div_add by lia.
  destruct (x mod a =? 0); lia.
Qed.

Lemma aligned_offset_multiple x a :
  x mod a = 0 -> aligned_offset x a = x.
Proof. intros H. unfold aligned_offset. rewrite H. reflexivity. Qed.

(** The size [compute_arg_buffer_size] returns for a specification built
    from [ts] and prepared for [rt] is the specification's formula, as long
    as the argument area ends at or below [INT_MAX] and the total is
    representable. *)
Lemma call_buffer_size_matches_spec ts rt :
  Forall ffi_type_ok ts -> ffi_type_ok rt ->
  snd (layout 0 ts) <= INT_MAX ->
  spec_call_buffer_size ts rt <= SIZE_MAX ->
  exists c,
    built ts rt = (Val tt, c) /\
    roffset c = alignUp (snd (layout 0 ts)) (alignment rt) /\
    compute_arg_buffer_size c tt =
    (Val (spec_call_buffer_size ts rt, bytes c), tt).
Proof.
  intros Hok (Hrs & Hra) Hend Htotal.
  pose proof (layout_end_ge 0 ts Hok) as Hge.
  pose proof (alignUp_bounds (snd (layout 0 ts)) (alignment rt) ltac:(lia))
    as Hup.
  pose proof (alignUp_bounds
                (alignUp (snd (layout 0 ts)) (alignment rt) + size rt) 8
                ltac:(lia)) as Hup8.
  pose proof (alignUp_multiple
                (alignUp (snd (layout 0 ts)) (alignment rt) + size rt) 8
                ltac:(lia)) as Hmul.
  unfold spec_call_buffer_size, sizeof_voidp in *.
  change (alignment ffi_type_pointer) with 8 in *.
  change (size ffi_type_pointer) with 8 in *.
  rewrite alignUp_add_alignment in * by lia.
  set (R := alignUp (snd (layout 0 ts)) (alignment rt) + size rt) in *.
  assert (Hn : 0 <= Z.of_nat (length ts)) by lia.
  destruct (add_arguments_layout ts fresh eq_refl (fresh_inv _ _))
    as (c0 & Hrun & Hbytes & Hnel & Hst & Hinv & Hcx & _ & Hnew);
    [change (nelements fresh) with 0; unfold SIZE_MAX in *; lia
    | exact Hok | simpl; lia | exact Hend |].
  pose proof (ctypes_prep_callspec_run prep_ok 0 rt c0 eq_refl) as Hprep.
  cbv zeta in Hprep. change (bytes fresh) with 0 in Hbytes.
  change (nelements fresh) with 0 in Hnel.
  change (alignment ffi_type_pointer) with 8 in Hprep.
  change (size ffi_type_pointer) with 8 in Hprep.
  rewrite Hbytes in Hprep.
  rewrite (aligned_offset_alignUp (snd (layout 0 ts)) (alignment rt)) in Hprep
    by (unfold INT_MAX, SIZE_MAX in *; lia).
  fold R in Hprep.
  rewrite (to_size_t_small R) in Hprep by lia.
  rewrite (aligned_offset_alignUp R 8) in Hprep by lia.
  rewrite (to_size_t_small (alignUp R 8 + 8)) in Hprep by lia.
  eexists. split.
  { unfold built. rewrite (bind_val _ _ _ _ _ Hrun). exact Hprep. }
  callspec_simpl. split; [reflexivity|].
  unfold compute_arg_buffer_size. cbv [bind assert_ ret]. callspec_simpl.
  cbv [callspec_state_eqb].
  change (alignment ffi_type_pointer) with 8. unfold sizeof_voidp.
  rewrite aligned_offset_multiple
    by (replace (alignUp R 8 + 8) with (alignUp R 8 + 1 * 8) by lia;
        rewrite Z_mod_plus_full; exact Hmul).
  rewrite Hnel, Z.add_0_l.
  rewrite (to_size_t_small (Z.of_nat (length ts) * 8)) by lia.
  rewrite to_size_t_small by lia.
  reflexivity.
Qed.

(** C6.  When libffi accepts, [ctypes_prep_callspec] sets
    [roffset = alignUp bytes rtype.alignment], then
    [bytes = roffset + rtype.size] rounded up to pointer alignment plus one
    pointer-sized slot, and the state becomes Prepared.  For arguments of
    sizes and alignments 4, 8, 1 and a return type of size and alignment 4
    the return offset is 20, the storage is 32 bytes, and
    [compute_arg_buffer_size] gives 56: the aligned segments (17), the
    return slot (up to 24), one pointer-sized pad rounded to pointer
    alignment (32), and three pointer-sized slots; this is the value of the
    specification's formula. *)
Theorem prep_callspec_layout :
  (forall status abi rt c,
     status abi (nelements c) rt (args c) = FFI_OK ->
     ffi_type_ok rt -> 0 <= bytes c ->
     alignUp (alignUp (bytes c) (alignment rt) + size rt)
             (alignment ffi_type_pointer)
     + size ffi_type_pointer <= SIZE_MAX ->
     exists c',
       ctypes_prep_callspec status abi rt c = (Val tt, c') /\
       roffset c' = alignUp (bytes c) (alignment rt) /\
       bytes c' = alignUp (roffset c' + size rt) (alignment ffi_type_pointer)
                  + size ffi_type_pointer /\
       state c' = CALLSPEC /\
       nelements c' = nelements c /\ args c' = args c) /\
  (exists c,
     built [int32_t; double_t; char_t] int32_t = (Val tt, c) /\
     roffset c = 20 /\ bytes c = 32 /\
     compute_arg_buffer_size c tt = (Val (56, 32), tt) /\
     spec_call_buffer_size [int32_t; double_t; char_t] int32_t = 56).
Proof.
  split.
  - intros status abi rt c Hok (Hrs & Hra) Hb Hfit.
    pose proof (ctypes_prep_callspec_run status abi rt c Hok) as Hprep.
    cbv zeta in Hprep.
    change (alignment ffi_type_pointer) with 8 in *.
    change (size ffi_type_pointer) with 8 in *.
    pose proof (alignUp_bounds (bytes c) (alignment rt) ltac:(lia)) as Hup.
    pose proof (alignUp_bounds (alignUp (bytes c) (alignment rt) + size rt) 8
                  ltac:(lia)) as Hup8.
    rewrite (aligned_offset_alignUp (bytes c) (alignment rt)) in Hprep
      by lia.
    rewrite (to_size_t_small (alignUp (bytes c) (alignment rt) + size rt))
      in Hprep by lia.
    rewrite (aligned_offset_alignUp (_ + size rt) 8) in Hprep by lia.
    rewrite to_size_t_small in Hprep by lia.
    eexists. split; [exact Hprep|]. callspec_simpl.
    split_and!; reflexivity.
  - eexists. split; [vm_compute; reflexivity|].
    split; [vm_compute; reflexivity|].
    split; [vm_compute; reflexivity|].
    split; [vm_compute; reflexivity|].
    vm_compute; reflexivity.
Qed.

Lemma prep_callspec_layout_witness :
  exists c',
    ctypes_prep_callspec prep_ok 0 int32_t fresh = (Val tt, c') /\
    roffset c' = 0 /\ state c' = CALLSPEC.
Proof.
  destruct (proj1 prep_callspec_layout prep_ok 0 int32_t fresh)
    as (c' & Hrun & Hro & _ & Hst & _).
  - reflexivity.
  - unfold ffi_type_ok. vm_compute. intuition discriminate.
  - vm_compute. discriminate.
  - vm_compute. discriminate.
  - exists c'. split; [exact Hrun|]. split; [exact Hro | exact Hst].
Defined.

(** ** The engine *)

Lemma compute_arg_buffer_size_run c :
  state c = CALLSPEC ->
  compute_arg_buffer_size c tt =
  (Val (to_size_t (aligned_offset (bytes c) (alignment ffi_type_pointer)
                   + to_size_t (nelements c * sizeof_voidp)),
        aligned_offset (bytes c) (alignment ffi_type_pointer)), tt).
Proof.
  intros Hst. unfold compute_arg_buffer_size. rewrite Hst. reflexivity.
Qed.

(** One invocation, as an equation.  The two loops are taken as they ran
    ([arr0] after the walk, [arr] and [refs] after the hand-backs); the
    native function returns, leaving [events] and mapping the error code. *)
Lemma ctypes_call_run {A} cb vra fnname fn cs argwriter (rvreader : Z -> A)
    arr0 arr refs errno_after events w :
  state cs = CALLSPEC ->
  populate_arg_array cs cb tt = (Val arr0, tt) ->
  (let fields := argwriter cb <$> seq 0 (Z.to_nat (nelements cs)) in
   for_loop (length fields) 0%nat (handback_body fields vra)
            (arr0, replicate (Z.to_nat (nelements cs)) None) tt
   = (Val (arr, refs), tt)) ->
  native_behaves fn errno_after events ->
  let cx := context cs in
  let slot := cb + to_int (roffset cs) in
  let e := errno_after (if check_errno cx then 0 else errno w) in
  ctypes_call cb vra fnname fn cs argwriter rvreader w =
  (if check_errno cx && negb (e =? 0)
   then Exn (Unix_error e (strcpy fnname))
   else Val (rvreader slot),
   mk_world e
            (if runtime_lock cx then true else runtime_held w)
            (trace w ++ call_events cx cb (fn_addr fn) slot arr refs events e)
            (retrieve_closure_ w)).
Proof.
  intros Hst Hpop Hloop Hnat cx slot e. cbv zeta in Hloop.
  unfold ctypes_call. rewrite Hst. cbv [callspec_state_eqb assert_].
  cbv [bind ret]. cbv beta iota.
  rewrite (pure_val _ _ _ (compute_arg_buffer_size_run cs Hst)).
  cbv beta iota.
  rewrite (pure_val _ _ _ Hpop). cbv beta iota.
  unfold log at 1. cbv [modify]. cbv beta iota.
  rewrite (pure_val _ _ _ Hloop). cbv beta iota.
  subst e. unfold call_events. fold cx. fold slot.
  destruct cx as [ce lk]. cbn [check_errno runtime_lock fst snd].
  destruct lk, ce;
    cbv [caml_release_runtime_system caml_acquire_runtime_system ffi_call
         log modify bind ret get unix_error raise when];
    cbv beta iota; rewrite Hnat; cbv beta iota;
    cbn [errno runtime_held trace retrieve_closure_ set_errno set_trace
         set_runtime_held andb negb];
    try (destruct (errno_after 0 =? 0));
    cbn [negb andb app];
    unfold set_errno, set_trace, set_runtime_held;
    cbn [errno runtime_held trace retrieve_closure_];
    rewrite <- ?app_assoc; cbn [app]; reflexivity.
Qed.

(** The walk succeeds on every specification whose first [nelements] type
    slots are filled. *)
Lemma populate_arg_array_total c cb :
  args_filled c ->
  exists arr0,
    populate_arg_array c cb tt = (Val arr0, tt) /\
    length arr0 = Z.to_nat (nelements c).
Proof.
  intros Hfilled. unfold populate_arg_array.
  set (n := Z.to_nat (nelements c)).
  destruct (for_loop_invariant
              (fun (_ : nat) (l : Z * list Z) => length (snd l) = n)
              (populate_body c cb) tt n 0%nat (0, replicate n 0))
    as (l' & Hrun & Hlen).
  - simpl. apply length_replicate.
  - intros i [off arr] Hi Hlen. simpl in Hlen.
    destruct (Hfilled i ltac:(lia)) as [t Ht].
    unfold populate_body. rewrite Ht. eexists. split; [reflexivity|].
    simpl. rewrite length_insert. exact Hlen.
  - exists (snd l'). rewrite (bind_val _ _ _ _ _ Hrun). split; auto.
Qed.

(** The loop over the value array, when the writer handed back nothing but
    strings: a handed-back slot points at its entry of [val_refs], which
    holds the string's address plus the offset; every other slot is as the
    walk left it. *)
Lemma handback_loop_run fields vra arr0 :
  length arr0 = length fields ->
  Forall (fun f => field_ok f = true) fields ->
  exists arr refs,
    for_loop (length fields) 0%nat (handback_body fields vra)
             (arr0, replicate (length fields) None) tt
    = (Val (arr, refs), tt) /\
    length arr = length fields /\ length refs = length fields /\
    forall i f, fields !! i = Some f ->
      match f with
      | Field_tuple (ML_string addr) arg_offset =>
          arr !! i = Some (vra + sizeof_voidp * Z.of_nat i) /\
          refs !! i = Some (Some (addr + to_int arg_offset))
      | _ => arr !! i = arr0 !! i /\ refs !! i = Some None
      end.
Proof.
  intros Hlen0 Hok. set (n := length fields).
  destruct (for_loop_invariant
              (fun k (l : list Z * list (option Z)) =>
                 length (fst l) = n /\ length (snd l) = n /\
                 (forall i f, fields !! i = Some f ->
                    if (i <? k)%nat then
                      match f with
                      | Field_tuple (ML_string addr) arg_offset =>
                          fst l !! i = Some (vra + sizeof_voidp * Z.of_nat i) /\
                          snd l !! i = Some (Some (addr + to_int arg_offset))
                      | _ => fst l !! i = arr0 !! i /\ snd l !! i = Some None
                      end
                    else fst l !! i = arr0 !! i /\ snd l !! i = Some None))
              (handback_body fields vra) tt n 0%nat (arr0, replicate n None))
    as ([arr refs] & Hrun & Ha & Hr & Hspec).
  - simpl. split; [exact Hlen0|]. split; [apply length_replicate|].
    intros i f Hf. split; [reflexivity|].
    apply lookup_replicate_2. apply lookup_lt_Some in Hf. exact Hf.
  - intros k [arr refs] Hk (Ha & Hr & Hspec). simpl in Ha, Hr, Hspec.
    destruct (lookup_lt_is_Some_2 fields k ltac:(lia)) as [fk Hfk].
    pose proof (proj1 (Forall_lookup _ _) Hok k fk Hfk) as Hfok.
    unfold handback_body. rewrite Hfk.
    assert (Hkeep :
      forall i f, fields !! i = Some f ->
        if (i <? Datatypes.S k)%nat then
          if (i <? k)%nat then
            match f with
            | Field_tuple (ML_string addr) arg_offset =>
                arr !! i = Some (vra + sizeof_voidp * Z.of_nat i) /\
                refs !! i = Some (Some (addr + to_int arg_offset))
            | _ => arr !! i = arr0 !! i /\ refs !! i = Some None
            end
          else arr !! i = arr0 !! i /\ refs !! i = Some None
        else arr !! i = arr0 !! i /\ refs !! i = Some None).
    { intros i f Hf. specialize (Hspec i f Hf).
      destruct (Nat.ltb_spec i k), (Nat.ltb_spec i (Datatypes.S k));
        try lia; exact Hspec. }
    destruct fk as [| | [addr | m | addr'] arg_offset];
      try discriminate Hfok.
    + eexists. split; [reflexivity|]. simpl.
      split; [exact Ha|]. split; [exact Hr|].
      intros i f Hf. specialize (Hkeep i f Hf).
      destruct (Nat.ltb_spec i (Datatypes.S k)); [|exact Hkeep].
      destruct (Nat.ltb_spec i k); [exact Hkeep|].
      assert (i = k) by lia. subst i. rewrite Hfk in Hf.
      injection Hf as <-. exact Hkeep.
    + eexists. split; [reflexivity|]. simpl.
      split; [exact Ha|]. split; [exact Hr|].
      intros i f Hf. specialize (Hkeep i f Hf).
      destruct (Nat.ltb_spec i (Datatypes.S k)); [|exact Hkeep].
      destruct (Nat.ltb_spec i k); [exact Hkeep|].
      assert (i = k) by lia. subst i. rewrite Hfk in Hf.
      injection Hf as <-. exact Hkeep.
    + eexists. split; [reflexivity|]. simpl.
      rewrite !length_insert.
      split; [exact Ha|]. split; [exact Hr|].
      intros i f Hf. specialize (Hkeep i f Hf).
      destruct (Nat.ltb_spec i (Datatypes.S k)).
      * destruct (Nat.ltb_spec i k).
        -- rewrite !list_lookup_insert_ne by lia. exact Hkeep.
        -- assert (i = k) by lia. subst i. rewrite Hfk in Hf.
           injection Hf as <-.
           rewrite !list_lookup_insert_eq by lia. split; reflexivity.
      * rewrite !list_lookup_insert_ne by lia. exact Hkeep.
  - exists arr, refs. split; [exact Hrun|]. simpl in Ha, Hr.
    split; [exact Ha|]. split; [exact Hr|].
    intros i f Hf. specialize (Hspec i f Hf). simpl in Hspec.
    pose proof (lookup_lt_Some _ _ _ Hf) as Hi.
    destruct (Nat.ltb_spec i n); [exact Hspec | subst n; lia].
Qed.

(** Every invocation on a prepared specification whose writer hands back
    nothing but strings reaches the dispatch and ends as
    [ctypes_call_run] says; the pointer array it dispatches with is
    described slot by slot. *)
Lemma ctypes_call_dispatch {A} cb vra fnname fn cs argwriter
    (rvreader : Z -> A) errno_after events w :
  state cs = CALLSPEC ->
  args_filled cs ->
  (forall i, field_ok (argwriter cb i) = true) ->
  native_behaves fn errno_after events ->
  let cx := context cs in
  let slot := cb + to_int (roffset cs) in
  let e := errno_after (if check_errno cx then 0 else errno w) in
  exists arr0 arr refs,
    populate_arg_array cs cb tt = (Val arr0, tt) /\
    (forall i, (i < Z.to_nat (nelements cs))%nat ->
       match argwriter cb i with
       | Field_tuple (ML_string addr) arg_offset =>
           arr !! i = Some (vra + sizeof_voidp * Z.of_nat i) /\
           refs !! i = Some (Some (addr + to_int arg_offset))
       | _ => arr !! i = arr0 !! i /\ refs !! i = Some None
       end) /\
    ctypes_call cb vra fnname fn cs argwriter rvreader w =
    (if check_errno cx && negb (e =? 0)
     then Exn (Unix_error e (strcpy fnname))
     else Val (rvreader slot),
     mk_world e
              (if runtime_lock cx then true else runtime_held w)
              (trace w ++ call_events cx cb (fn_addr fn) slot arr refs events e)
              (retrieve_closure_ w)).
Proof.
  intros Hst Hfilled Hfields Hnat cx slot e.
  destruct (populate_arg_array_total cs cb Hfilled) as (arr0 & Hpop & Hlen0).
  set (n := Z.to_nat (nelements cs)) in *.
  set (fields := argwriter cb <$> seq 0 n).
  assert (Hflen : length fields = n)
    by (unfold fields; rewrite length_fmap, length_seq; reflexivity).
  destruct (handback_loop_run fields vra arr0) as (arr & refs & Hloop & _ & _ & Hspec).
  - lia.
  - apply Forall_forall. intros f Hf.
    apply list_elem_of_fmap in Hf as (i & -> & _). apply Hfields.
  - rewrite Hflen in Hloop.
    exists arr0, arr, refs. split; [exact Hpop|]. split.
    + intros i Hi. apply (Hspec i (argwriter cb i)).
      unfold fields. rewrite list_lookup_fmap.
      rewrite (proj2 (lookup_seq 0 n i i) (conj eq_refl Hi)). reflexivity.
    + apply ctypes_call_run with (arr0 := arr0); try assumption.
      cbv zeta. fold n. fold fields. rewrite Hflen. exact Hloop.
Qed.

(** ** The runtime lock over a trace *)

Lemma lock_run_app h t1 t2 :
  lock_run h (t1 ++ t2) =
  match lock_run h t1 with
  | Some h' => lock_run h' t2
  | None => None
  end.
Proof.
  revert h. induction t1 as [|e t1 IH]; intros h; simpl; [reflexivity|].
  destruct e; try apply IH; destruct h; try reflexivity; apply IH.
Qed.

Lemma lock_run_quiet h t :
  forallb (fun e => negb (is_lock_event e)) t = true -> lock_run h t = Some h.
Proof.
  induction t as [|e t IH]; simpl; [reflexivity|].
  intros H. apply andb_true_iff in H as [He Ht].
  destruct e; try discriminate He; apply IH; exact Ht.
Qed.


(** The events of an invocation are balanced from a held lock whenever
    the native function's own events are balanced from the state the engine
    leaves the lock in. *)
Lemma call_events_balanced cx cb fn slot arr refs events e :
  lock_balanced (negb (runtime_lock cx)) events ->
  lock_balanced true (call_events cx cb fn slot arr refs events e).
Proof.
  unfold lock_balanced, call_events. intros Hev.
  destruct cx as [ce lk]. cbn [runtime_lock check_errno] in *.
  destruct lk, ce; cbn [when app lock_run negb] in *;
    rewrite lock_run_app, Hev;
    destruct (negb (_ && _)); reflexivity.
Qed.

(** ** The bridge *)

Lemma call_Fn_run k v w :
  call_Fn (Fn k) v w = (Val (k v), set_trace (trace w ++ [Ev_apply_Fn v]) w).
Proof. reflexivity. Qed.

(** The loop of the bridge over the native arguments follows the chain
    and logs one application per argument, in order. *)
Lemma bridge_loop_run (cargs : list Z) :
  forall count start b b' w,
    (start + count <= length cargs)%nat ->
    chain_after b (Val_ptr <$> take count (drop start cargs)) = Some b' ->
    for_loop count start
      (fun i boxedfn =>
         match cargs !! i with
         | Some cvalue => call_Fn boxedfn (Val_ptr cvalue)
         | None => crash Wild_access
         end) b w
    = (Val b',
       set_trace (trace w
                  ++ (Ev_apply_Fn <$> (Val_ptr <$> take count (drop start cargs))))
                 w).
Proof.
  induction count as [|count IH]; intros start b b' w Hlen Hchain.
  - rewrite take_0 in *. rewrite !fmap_nil in *. simpl in *.
    injection Hchain as <-. unfold ret, set_trace.
    rewrite app_nil_r. destruct w; reflexivity.
  - destruct (lookup_lt_is_Some_2 cargs start ltac:(lia)) as [x Hx].
    rewrite (drop_S _ _ _ Hx) in *. rewrite firstn_cons in *.
    rewrite !fmap_cons in *. simpl in Hchain |- *.
    destruct b as [k | k]; [discriminate Hchain|].
    rewrite Hx.
    rewrite (bind_val _ _ _ _ _ (call_Fn_run k (Val_ptr x) w)).
    rewrite (IH (Datatypes.S start) (k (Val_ptr x)) b' _ ltac:(lia) Hchain).
    unfold set_trace. cbn [trace errno runtime_held retrieve_closure_].
    rewrite <- app_assoc. reflexivity.
Qed.

(** A run of the bridge that completes, as an equation. *)
Lemma callback_handler_run cif ret_slot cargs cl w retrieve b k :
  retrieve_closure_ w = Some retrieve ->
  retrieve (fnkey cl) = Some b ->
  (Z.to_nat (to_int (nargs cif)) <= length cargs)%nat ->
  chain_after b (bridge_arguments cif cargs) = Some (Done k) ->
  callback_handler cif ret_slot cargs cl w =
  (Val tt,
   mk_world (errno w)
            (if runtime_lock (closure_context cl) then false
             else runtime_held w)
            (trace w ++ bridge_events (closure_context cl) (fnkey cl) ret_slot
                                      (bridge_arguments cif cargs))
            (retrieve_closure_ w)).
Proof.
  intros Hres Hkey Hlen Hchain. unfold callback_handler, bridge_events.
  unfold bridge_arguments in *.
  set (lk := runtime_lock (closure_context cl)).
  set (w1 := if lk then set_trace (trace w ++ [Ev_acquire_runtime])
                                  (set_runtime_held true w) else w).
  assert (H1 : (if lk then caml_acquire_runtime_system else ret tt) w
               = (Val tt, w1)) by (subst w1; destruct lk; reflexivity).
  rewrite (bind_val _ _ _ _ _ H1).
  assert (Hres1 : retrieve_closure_ w1 = Some retrieve)
    by (subst w1; destruct lk; exact Hres).
  assert (H2 : retrieve_closure (fnkey cl) w1
               = (Val b, set_trace (trace w1 ++ [Ev_resolve (fnkey cl)]) w1)).
  { unfold retrieve_closure. cbv [bind get log modify].
    rewrite Hres1, Hkey. reflexivity. }
  rewrite (bind_val _ _ _ _ _ H2).
  set (w2 := set_trace (trace w1 ++ [Ev_resolve (fnkey cl)]) w1).
  destruct (Z.eqb_spec (to_int (nargs cif)) 0) as [Hz | Hnz].
  - simpl in Hchain. destruct b as [k0 | k0]; [discriminate Hchain|].
    injection Hchain as Hk0.
    rewrite (bind_val _ _ _ _ _ (call_Fn_run k0 Val_unit w2)). rewrite Hk0.
    subst w2 w1. rewrite fmap_cons, fmap_nil.
    destruct lk;
      cbv [bind call_Done log modify ret caml_release_runtime_system when];
      unfold set_trace, set_runtime_held;
      cbn [trace errno runtime_held retrieve_closure_];
      rewrite <- ?app_assoc; cbn [app]; reflexivity.
  - rewrite <- (drop_0 cargs) in Hchain at 1.
    rewrite (bind_val _ _ _ _ _
               (bridge_loop_run cargs _ 0%nat b (Done k) w2 Hlen Hchain)).
    rewrite drop_0. subst w2 w1.
    destruct lk;
      cbv [bind call_Done log modify ret caml_release_runtime_system when];
      unfold set_trace, set_runtime_held;
      cbn [trace errno runtime_held retrieve_closure_];
      rewrite <- ?app_assoc; cbn [app]; reflexivity.
Qed.

(** A run of the bridge whose key no longer resolves, as an equation. *)
Lemma callback_handler_expired cif ret_slot cargs cl w retrieve :
  retrieve_closure_ w = Some retrieve ->
  retrieve (fnkey cl) = None ->
  callback_handler cif ret_slot cargs cl w =
  (Exn CallToExpiredClosure,
   mk_world (errno w)
            (if runtime_lock (closure_context cl) then true
             else runtime_held w)
            (trace w ++ when (runtime_lock (closure_context cl))
                             [Ev_acquire_runtime]
                     ++ [Ev_resolve (fnkey cl)])
            (retrieve_closure_ w)).
Proof.
  intros Hres Hkey. unfold callback_handler.
  set (lk := runtime_lock (closure_context cl)).
  set (w1 := if lk then set_trace (trace w ++ [Ev_acquire_runtime])
                                  (set_runtime_held true w) else w).
  assert (H1 : (if lk then caml_acquire_runtime_system else ret tt) w
               = (Val tt, w1)) by (subst w1; destruct lk; reflexivity).
  rewrite (bind_val _ _ _ _ _ H1).
  assert (Hres1 : retrieve_closure_ w1 = Some retrieve)
    by (subst w1; destruct lk; exact Hres).
  assert (H2 : retrieve_closure (fnkey cl) w1
               = (Exn CallToExpiredClosure,
                  set_trace (trace w1 ++ [Ev_resolve (fnkey cl)]) w1)).
  { unfold retrieve_closure. cbv [bind get log modify].
    rewrite Hres1, Hkey. reflexivity. }
  rewrite (bind_exn _ _ _ _ _ H2).
  subst w1. destruct lk; unfold set_trace, set_runtime_held, when;
    cbn [trace errno runtime_held retrieve_closure_];
    rewrite <- ?app_assoc; cbn [app]; reflexivity.
Qed.

Lemma filter_lock_applications (vs : list value) :
  List.filter is_lock_event (Ev_apply_Fn <$> vs) = [].
Proof. induction vs as [|v vs IH]; simpl; [reflexivity | exact IH]. Qed.

Lemma applications_fmap (vs : list value) :
  List.filter is_application (Ev_apply_Fn <$> vs) = (Ev_apply_Fn <$> vs).
Proof.
  induction vs as [|v vs IH]; simpl; [reflexivity | f_equal; exact IH].
Qed.

Lemma call_events_lock cx cb fn slot arr refs events e :
  List.filter is_lock_event (call_events cx cb fn slot arr refs events e)
  = when (runtime_lock cx) [Ev_release_runtime]
    ++ List.filter is_lock_event events
    ++ when (runtime_lock cx) [Ev_acquire_runtime].
Proof.
  unfold call_events. destruct cx as [ce lk]. cbn [runtime_lock check_errno].
  destruct lk, ce; cbn [when app List.filter is_lock_event];
    rewrite List.filter_app; cbn [List.filter is_lock_event app];
    destruct (negb (_ && _)); cbn [when List.filter is_lock_event];
    rewrite ?app_nil_r; reflexivity.
Qed.

Lemma bridge_events_lock cx key ret_slot vs :
  List.filter is_lock_event (bridge_events cx key ret_slot vs)
  = when (runtime_lock cx) [Ev_acquire_runtime; Ev_release_runtime].
Proof.
  unfold bridge_events. destruct (runtime_lock cx);
    cbn [when app List.filter is_lock_event];
    rewrite List.filter_app, filter_lock_applications; reflexivity.
Qed.


Lemma bridge_events_applications cx key ret_slot vs :
  applications (bridge_events cx key ret_slot vs)
  = (Ev_apply_Fn <$> vs) ++ [Ev_apply_Done (Val_ptr ret_slot)].
Proof.
  unfold bridge_events, applications. destruct (runtime_lock cx);
    cbn [when app List.filter is_application];
    rewrite List.filter_app, applications_fmap; reflexivity.
Qed.

Lemma sets_errno_behaves e : native_behaves (sets_errno e) (fun _ => e) [].
Proof.
  intros slot arr refs w. unfold sets_errno, modify, set_trace, set_errno.
  cbn [fn_body errno runtime_held trace retrieve_closure_].
  rewrite app_nil_r. reflexivity.
Qed.

Lemma quiet_fn_behaves : native_behaves quiet_fn (fun e => e) [].
Proof.
  intros slot arr refs w. unfold quiet_fn, ret, set_trace, set_errno.
  cbn [fn_body errno runtime_held trace retrieve_closure_].
  rewrite app_nil_r. destruct w; reflexivity.
Qed.

Lemma pointer_spec_filled : args_filled pointer_spec.
Proof.
  intros i Hi.
  assert (Hn : Z.to_nat (nelements pointer_spec) = 1%nat)
    by (vm_compute; reflexivity).
  rewrite Hn in Hi.
  destruct i as [|i]; [|lia]. eexists. vm_compute. reflexivity.
Qed.

Lemma checked_locked_spec_filled : args_filled checked_locked_spec.
Proof.
  intros i Hi.
  assert (Hn : Z.to_nat (nelements checked_locked_spec) = 1%nat)
    by (vm_compute; reflexivity).
  rewrite Hn in Hi.
  destruct i as [|i]; [|lia]. eexists. vm_compute. reflexivity.
Qed.

(** ** Invocations whose native function calls back *)

Lemma strcpy_no_nul s : no_nul s = true -> strcpy s = s.
Proof.
  induction s as [|c s IH]; simpl; [reflexivity|].
  intros H. apply andb_true_iff in H as [Hc Hs].
  destruct (Ascii.eqb c zero); [discriminate Hc|].
  rewrite (IH Hs). reflexivity.
Qed.







Lemma checked_locked_spec_aligned : args_aligned checked_locked_spec.
Proof.
  intros i t Hi Ht.
  assert (Hn : Z.to_nat (nelements checked_locked_spec) = 1%nat)
    by (vm_compute; reflexivity).
  rewrite Hn in Hi. destruct i as [|i]; [|lia].
  assert (Ha : args checked_locked_spec !! 0%nat = Some (Ptr ffi_type_pointer))
    by (vm_compute; reflexivity).
  rewrite Ha in Ht. injection Ht as <-. vm_compute. reflexivity.
Qed.

Lemma pointer_spec_aligned : args_aligned pointer_spec.
Proof.
  intros i t Hi Ht.
  assert (Hn : Z.to_nat (nelements pointer_spec) = 1%nat)
    by (vm_compute; reflexivity).
  rewrite Hn in Hi. destruct i as [|i]; [|lia].
  assert (Ha : args pointer_spec !! 0%nat = Some (Ptr ffi_type_pointer))
    by (vm_compute; reflexivity).
  rewrite Ha in Ht. injection Ht as <-. vm_compute. reflexivity.
Qed.

(** ** Claims about the engine and the bridge *)




(** C3.  With [check_errno] set, the error code is reset just before the
    dispatch and saved just after it (the native function therefore starts
    from 0, and what is saved is what it leaves); the lock, when it was
    released, is reacquired next; then a nonzero saved code becomes
    [Unix_error] with that code and the supplied function name, and nothing
    else happens.  With [check_errno] clear the error code is neither reset
    nor read and the call returns what the return reader makes of the
    return slot.  The function name is a C string (it holds no NUL byte:
    the stub copies it with [strcpy]), and the argument types have a
    positive alignment. *)
Theorem errno_checked_call {A} cb vra fnname fn cs argwriter
    (rvreader : Z -> A) errno_after events w :
  state cs = CALLSPEC ->
  args_filled cs -> args_aligned cs ->
  (forall i, field_ok (argwriter cb i) = true) ->
  no_nul fnname = true ->
  native_behaves fn errno_after events ->
  let lk := runtime_lock (context cs) in
  let slot := cb + to_int (roffset cs) in
  (check_errno (context cs) = true ->
   let e := errno_after 0 in
   exists arr refs w',
     ctypes_call cb vra fnname fn cs argwriter rvreader w =
     (if e =? 0 then Val (rvreader slot) else Exn (Unix_error e fnname), w') /\
     trace w' =
       trace w ++ [Ev_argwriter cb] ++ when lk [Ev_release_runtime]
       ++ [Ev_errno_reset; Ev_ffi_call (fn_addr fn) slot arr refs]
       ++ events
       ++ [Ev_errno_saved e] ++ when lk [Ev_acquire_runtime]
       ++ (if e =? 0 then [Ev_rvreader slot] else []) /\
     runtime_held w' = (if lk then true else runtime_held w) /\
     errno w' = e) /\
  (check_errno (context cs) = false ->
   exists arr refs w',
     ctypes_call cb vra fnname fn cs argwriter rvreader w =
     (Val (rvreader slot), w') /\
     trace w' =
       trace w ++ [Ev_argwriter cb] ++ when lk [Ev_release_runtime]
       ++ [Ev_ffi_call (fn_addr fn) slot arr refs]
       ++ events
       ++ when lk [Ev_acquire_runtime] ++ [Ev_rvreader slot] /\
     errno w' = errno_after (errno w)).
Proof.
  intros Hst Hfilled _ Hfields Hname Hnat lk slot.
  destruct (ctypes_call_dispatch cb vra fnname fn cs argwriter rvreader
              errno_after events w Hst Hfilled Hfields Hnat)
    as (arr0 & arr & refs & _ & _ & Hrun).
  cbv zeta in Hrun. fold lk slot in Hrun. unfold call_events in Hrun.
  fold lk in Hrun. rewrite (strcpy_no_nul fnname Hname) in Hrun.
  split; intros Hce; rewrite Hce in Hrun; cbn [andb negb when] in Hrun.
  - intros e. fold e in Hrun.
    destruct (e =? 0); cbn [negb when] in Hrun;
      exists arr, refs; eexists; (split; [exact Hrun|]);
      cbn [trace errno runtime_held app]; rewrite ?app_nil_r;
      split_and!; reflexivity.
  - exists arr, refs. eexists. split; [exact Hrun|]. split.
    + cbn [trace]. cbn [app]. rewrite ?app_nil_r. reflexivity.
    + reflexivity.
Qed.

Lemma errno_checked_call_witness :
  exists w',
    ctypes_call 4096 8192 "read" (sets_errno 4) checked_locked_spec
                no_handback (fun slot => slot) world0
    = (Exn (Unix_error 4 "read"), w') /\
    runtime_held w' = true /\ errno w' = 4.
Proof.
  destruct (errno_checked_call 4096 8192 "read"%string (sets_errno 4)
              checked_locked_spec no_handback (fun slot => slot)
              (fun _ => 4) [] world0) as [Hchecked _].
  - vm_compute. reflexivity.
  - exact checked_locked_spec_filled.
  - exact checked_locked_spec_aligned.
  - intros i. reflexivity.
  - reflexivity.
  - apply sets_errno_behaves.
  - destruct Hchecked as (arr & refs & w' & Hrun & _ & Hheld & Herr).
    + reflexivity.
    + exists w'. split; [exact Hrun|]. split; [exact Hheld | exact Herr].
Defined.

(** C8, the claim as stated fails.  One pointer argument, and a writer that
    hands back the string at 65536 with offset 3; the call buffer is at
    4096 and [val_refs] at 8192.  The dispatch sees the pointer-array slot
    holding 8192, the address of the entry of [val_refs], not the byte
    address 65539; the byte address is what that entry holds. *)
Lemma handback_slot_is_not_byte_address :
  trace (snd (ctypes_call 4096 8192 "puts" quiet_fn pointer_spec
                          string_handback (fun slot => slot) world0))
  = [Ev_argwriter 4096;
     Ev_ffi_call 4198400 4104 [8192] [Some 65539];
     Ev_rvreader 4104] /\
  [8192] <> [65536 + 3].
Proof.
  split; [vm_compute; reflexivity | discriminate].
Qed.

(** C8 (amended).  For every argument for which the writer handed back a
    string and an offset, the engine stores the string's address plus the
    offset (taken as a C [int]) in the entry of [val_refs] with that index
    and overwrites the pointer-array slot with the address of that entry;
    the slots of the other arguments keep the in-buffer addresses the walk
    computed.  These are the arrays the native function is dispatched
    with. *)
Theorem handback_indirection {A} cb vra fnname fn cs argwriter
    (rvreader : Z -> A) errno_after events w :
  state cs = CALLSPEC ->
  args_filled cs ->
  (forall i, field_ok (argwriter cb i) = true) ->
  native_behaves fn errno_after events ->
  exists arr0 arr refs r w' before after,
    populate_arg_array cs cb tt = (Val arr0, tt) /\
    ctypes_call cb vra fnname fn cs argwriter rvreader w = (r, w') /\
    trace w' =
      trace w ++ before
      ++ [Ev_ffi_call (fn_addr fn) (cb + to_int (roffset cs)) arr refs]
      ++ after /\
    forall i, (i < Z.to_nat (nelements cs))%nat ->
      match argwriter cb i with
      | Field_tuple (ML_string addr) arg_offset =>
          refs !! i = Some (Some (addr + to_int arg_offset)) /\
          arr !! i = Some (vra + sizeof_voidp * Z.of_nat i)
      | _ => arr !! i = arr0 !! i
      end.
Proof.
  intros Hst Hfilled Hfields Hnat.
  destruct (ctypes_call_dispatch cb vra fnname fn cs argwriter rvreader
              errno_after events w Hst Hfilled Hfields Hnat)
    as (arr0 & arr & refs & Hpop & Hslots & Hrun).
  cbv zeta in Hrun. unfold call_events in Hrun.
  exists arr0, arr, refs. eexists _, _.
  exists ([Ev_argwriter cb]
          ++ when (runtime_lock (context cs)) [Ev_release_runtime]
          ++ when (check_errno (context cs)) [Ev_errno_reset]).
  eexists. split; [exact Hpop|]. split; [exact Hrun|]. split.
  - cbn [trace]. rewrite <- !app_assoc. reflexivity.
  - intros i Hi. specialize (Hslots i Hi).
    destruct (argwriter cb i) as [| | [addr | m | addr'] arg_offset];
      tauto.
Qed.

Lemma handback_indirection_witness :
  exists arr refs r w' before after,
    ctypes_call 4096 8192 "puts" quiet_fn pointer_spec string_handback
                (fun slot => slot) world0 = (r, w') /\
    trace w' =
      trace world0 ++ before
      ++ [Ev_ffi_call (fn_addr quiet_fn)
                      (4096 + to_int (roffset pointer_spec)) arr refs]
      ++ after /\
    refs !! 0%nat = Some (Some (65536 + to_int 3)) /\
    arr !! 0%nat = Some (8192 + sizeof_voidp * Z.of_nat 0).
Proof.
  destruct (handback_indirection 4096 8192 "puts"%string quiet_fn
              pointer_spec string_handback (fun slot => slot)
              (fun e => e) [] world0)
    as (arr0 & arr & refs & r & w' & before & after & _ & Hrun & Htr & Hslots).
  - vm_compute. reflexivity.
  - exact pointer_spec_filled.
  - intros i. reflexivity.
  - apply quiet_fn_behaves.
  - exists arr, refs, r, w', before, after.
    split; [exact Hrun|]. split; [exact Htr|].
    apply (Hslots 0%nat). vm_compute. lia.
Defined.

(** C9.  When the resolver raises for the trampoline's key, the bridge
    raises [CallToExpiredClosure]; all it has done is take the lock (when
    asked to) and call the resolver: no step of any managed function is
    applied. *)
Theorem expired_closure_not_applied cif ret_slot cargs cl w retrieve :
  retrieve_closure_ w = Some retrieve ->
  retrieve (fnkey cl) = None ->
  exists w' t,
    callback_handler cif ret_slot cargs cl w
    = (Exn CallToExpiredClosure, w') /\
    trace w' = trace w ++ t /\
    t = when (runtime_lock (closure_context cl)) [Ev_acquire_runtime]
        ++ [Ev_resolve (fnkey cl)] /\
    applications t = [].
Proof.
  intros Hres Hkey. eexists _, _.
  split; [exact (callback_handler_expired _ _ _ _ _ _ Hres Hkey)|].
  cbn [trace]. split; [reflexivity|]. split; [reflexivity|].
  destruct (runtime_lock (closure_context cl)); reflexivity.
Qed.

Lemma expired_closure_not_applied_witness :
  exists w' t,
    callback_handler (cif_of_arity 2) 512 [256; 264] locked_closure
                     expired_world = (Exn CallToExpiredClosure, w') /\
    trace w' = trace expired_world ++ t /\ applications t = [].
Proof.
  destruct (expired_closure_not_applied (cif_of_arity 2) 512 [256; 264]
              locked_closure expired_world (fun _ => None))
    as (w' & t & Hrun & Htr & _ & Happ).
  - reflexivity.
  - reflexivity.
  - exists w', t. split; [exact Hrun|]. split; [exact Htr | exact Happ].
Defined.

(** The call interface of a trampoline made from a specification built
    from [ts] has one argument per type of [ts]. *)
Lemma make_function_pointer_arity ts rt addr fnid :
  Forall ffi_type_ok ts ->
  Z.of_nat (length ts) + 17 <= SIZE_MAX ->
  snd (layout 0 ts) <= INT_MAX ->
  exists c tr,
    built ts rt = (Val tt, c) /\
    ctypes_make_function_pointer (Some addr) FFI_OK c fnid tt = (Val tr, tt) /\
    nargs (tr_cif tr) = Z.of_nat (length ts) /\
    fnkey (tr_closure tr) = to_int fnid /\
    closure_context (tr_closure tr) = context c.
Proof.
  intros Hok Hlen Hend.
  destruct (add_arguments_layout ts fresh eq_refl (fresh_inv _ _))
    as (c0 & Hrun & _ & Hn & _);
    [exact Hlen | exact Hok | simpl; lia | exact Hend |].
  pose proof (ctypes_prep_callspec_run prep_ok 0 rt c0 eq_refl) as Hprep.
  cbv zeta in Hprep.
  eexists _, _. split.
  { unfold built. rewrite (bind_val _ _ _ _ _ Hrun). exact Hprep. }
  unfold ctypes_make_function_pointer. callspec_simpl.
  split; [reflexivity|]. cbn [tr_cif tr_closure nargs fnkey closure_context].
  split; [exact Hn|]. split; reflexivity.
Qed.

(** C7, the claim as stated fails for a call interface without arguments.
    The bridge does not apply the result step directly: handed a chain of
    one step, it applies that step to the unit value and then the result
    step, one step application where the claim counts none; handed the
    result step alone, it trips the assertion before any application. *)
Lemma bridge_zero_arity_applies_step :
  (exists w',
     invoke_trampoline (trampoline_of_arity 0) 512 []
                       (world_resolving thunk_chain) = (Val tt, w') /\
     applications (trace w')
     = [Ev_apply_Fn Val_unit; Ev_apply_Done (Val_ptr 512)]) /\
  (exists w',
     invoke_trampoline (trampoline_of_arity 0) 512 []
                       (world_resolving result_only)
     = (Fault Assert_failed, w') /\
     applications (trace w') = []).
Proof.
  split; eexists; (split; [vm_compute; reflexivity|]); reflexivity.
Qed.

(** C7 (amended).  Invoked through a call interface with [n >= 1]
    arguments and a managed chain of [n] steps ending in the result step,
    the bridge applies exactly [n] steps, one per native argument address in
    argument order, and then the result step once on the return slot.
    Through a call interface without arguments it applies exactly one step,
    to the unit value, and then the result step. *)
Theorem bridge_applications tr ret_slot cargs w retrieve b k :
  retrieve_closure_ w = Some retrieve ->
  retrieve (fnkey (tr_closure tr)) = Some b ->
  let n := to_int (nargs (tr_cif tr)) in
  (0 < n -> length cargs = Z.to_nat n ->
   chain_after b (Val_ptr <$> cargs) = Some (Done k) ->
   exists w' t,
     invoke_trampoline tr ret_slot cargs w = (Val tt, w') /\
     trace w' = trace w ++ t /\
     applications t =
       (Ev_apply_Fn <$> (Val_ptr <$> cargs))
       ++ [Ev_apply_Done (Val_ptr ret_slot)] /\
     length (Ev_apply_Fn <$> (Val_ptr <$> cargs)) = Z.to_nat n) /\
  (n = 0 ->
   chain_after b [Val_unit] = Some (Done k) ->
   exists w' t,
     invoke_trampoline tr ret_slot cargs w = (Val tt, w') /\
     trace w' = trace w ++ t /\
     applications t = [Ev_apply_Fn Val_unit; Ev_apply_Done (Val_ptr ret_slot)]).
Proof.
  intros Hres Hkey n. split.
  - intros Hn Hlen Hchain.
    assert (Hargs : bridge_arguments (tr_cif tr) cargs = (Val_ptr <$> cargs)).
    { unfold bridge_arguments. fold n.
      destruct (Z.eqb_spec n 0); [lia|]. rewrite take_ge by lia.
      reflexivity. }
    eexists _, _. split.
    { unfold invoke_trampoline.
      apply (callback_handler_run _ _ _ _ _ _ b k Hres Hkey).
      - fold n. lia.
      - rewrite Hargs. exact Hchain. }
    cbn [trace]. split; [reflexivity|]. rewrite Hargs. split.
    + apply bridge_events_applications.
    + rewrite !length_fmap. exact Hlen.
  - intros Hn Hchain.
    assert (Hargs : bridge_arguments (tr_cif tr) cargs = [Val_unit]).
    { unfold bridge_arguments. fold n. rewrite Hn. reflexivity. }
    eexists _, _. split.
    { unfold invoke_trampoline.
      apply (callback_handler_run _ _ _ _ _ _ b k Hres Hkey).
      - fold n. rewrite Hn. simpl. lia.
      - rewrite Hargs. exact Hchain. }
    cbn [trace]. split; [reflexivity|]. rewrite Hargs.
    apply bridge_events_applications.
Qed.

Lemma bridge_applications_witness :
  exists w' t,
    invoke_trampoline (trampoline_of_arity 2) 512 [256; 264]
                      (world_resolving binary_chain) = (Val tt, w') /\
    trace w' = trace (world_resolving binary_chain) ++ t /\
    applications t =
      [Ev_apply_Fn (Val_ptr 256); Ev_apply_Fn (Val_ptr 264);
       Ev_apply_Done (Val_ptr 512)].
Proof.
  destruct (bridge_applications (trampoline_of_arity 2) 512 [256; 264]
              (world_resolving binary_chain) (fun _ => Some binary_chain)
              binary_chain write_result eq_refl eq_refl) as [Hsteps _].
  destruct Hsteps as (w' & t & Hrun & Htr & Happ & _).
  - vm_compute. reflexivity.
  - vm_compute. reflexivity.
  - vm_compute. reflexivity.
  - exists w', t. split; [exact Hrun|]. split; [exact Htr | exact Happ].
Defined.

Lemma to_int_wraps x :
  INT_MAX < x -> exists k, 0 < k /\ to_int x = x - k * 2 ^ 32.
Proof.
  intros Hx. exists ((x + 2 ^ 31) / 2 ^ 32). split.
  - apply Z.div_str_pos. unfold INT_MAX in Hx. lia.
  - unfold to_int. rewrite Z.mod_eq by lia. lia.
Qed.

Lemma after_huge_inv : builder_inv after_huge.
Proof.
  unfold builder_inv.
  assert (Hl : Z.of_nat (length (args after_huge)) = 8)
    by (vm_compute; reflexivity).
  assert (Hc : capacity after_huge = 8) by (vm_compute; reflexivity).
  assert (Hn : nelements after_huge = 1) by (vm_compute; reflexivity).
  rewrite Hl, Hc, Hn. unfold SIZE_MAX. lia.
Qed.

(** C10.  [ctypes_add_argument] reports no error and returns the aligned
    running size converted to [int]: the true value while it is at most
    [INT_MAX], and beyond that the value reduced by a positive multiple of
    [2^32], which differs from the aligned value of the [size_t] running
    size the specification holds; the new running size continues from the
    truncated offset.  [ctypes_call] likewise dispatches with the return
    slot at the buffer address plus [roffset] converted to [int], which is
    the buffer address plus [roffset] only while [roffset] is at most
    [INT_MAX]. *)
Theorem offset_truncated_to_int :
  (forall c t,
     state c = BUILDING -> builder_inv c -> ffi_type_ok t ->
     0 <= bytes c -> alignUp (bytes c) (alignment t) <= SIZE_MAX ->
     let true_offset := alignUp (bytes c) (alignment t) in
     exists c',
       ctypes_add_argument t c = (Val (to_int true_offset), c') /\
       bytes c' = to_size_t (to_int true_offset + size t) /\
       (true_offset <= INT_MAX -> to_int true_offset = true_offset) /\
       (INT_MAX < true_offset ->
        to_int true_offset <> true_offset /\
        exists k, 0 < k /\ to_int true_offset = true_offset - k * 2 ^ 32)) /\
  (forall A cb vra fnname fn cs argwriter (rvreader : Z -> A)
          errno_after events w,
     state cs = CALLSPEC ->
     args_filled cs ->
     (forall i, field_ok (argwriter cb i) = true) ->
     native_behaves fn errno_after events ->
     exists arr refs r w' before after,
       ctypes_call cb vra fnname fn cs argwriter rvreader w = (r, w') /\
       trace w' =
         trace w ++ before
         ++ [Ev_ffi_call (fn_addr fn) (cb + to_int (roffset cs)) arr refs]
         ++ after /\
       (0 <= roffset cs <= INT_MAX -> to_int (roffset cs) = roffset cs) /\
       (INT_MAX < roffset cs ->
        cb + to_int (roffset cs) <> cb + roffset cs)).
Proof.
  split.
  - intros c t Hst Hinv (Hsz & Hal) Hb Hfit true_offset.
    pose proof (ctypes_add_argument_run t c Hst Hinv) as Hrun.
    cbv zeta in Hrun.
    rewrite (aligned_offset_alignUp (bytes c) (alignment t)) in Hrun
      by (assumption || lia).
    fold true_offset in Hrun.
    pose proof (alignUp_bounds (bytes c) (alignment t) ltac:(lia)) as Hup.
    fold true_offset in Hup.
    eexists. split; [exact Hrun|]. callspec_simpl.
    split; [reflexivity|]. split.
    + intros Hsmall. apply to_int_small. unfold INT_MIN. lia.
    + intros Hlarge. split; [apply to_int_large; exact Hlarge|].
      apply to_int_wraps. exact Hlarge.
  - intros A cb vra fnname fn cs argwriter rvreader errno_after events w
           Hst Hfilled Hfields Hnat.
    destruct (ctypes_call_dispatch cb vra fnname fn cs argwriter rvreader
                errno_after events w Hst Hfilled Hfields Hnat)
      as (arr0 & arr & refs & _ & _ & Hrun).
    cbv zeta in Hrun. unfold call_events in Hrun.
    exists arr, refs. eexists _, _.
    exists ([Ev_argwriter cb]
            ++ when (runtime_lock (context cs)) [Ev_release_runtime]
            ++ when (check_errno (context cs)) [Ev_errno_reset]).
    eexists. split; [exact Hrun|]. split.
    + cbn [trace]. rewrite <- !app_assoc. reflexivity.
    + split.
      * intros Hsmall. apply to_int_small. unfold INT_MIN. lia.
      * intros Hlarge. pose proof (to_int_large _ Hlarge). lia.
Qed.

Lemma offset_truncated_to_int_witness :
  exists c',
    ctypes_add_argument char_t after_huge = (Val (-2147483648), c') /\
    bytes after_huge = 2147483648 /\
    to_int (alignUp (bytes after_huge) (alignment char_t))
    <> alignUp (bytes after_huge) (alignment char_t).
Proof.
  destruct (proj1 offset_truncated_to_int after_huge char_t)
    as (c' & Hrun & _ & _ & Hlarge).
  - vm_compute. reflexivity.
  - exact after_huge_inv.
  - unfold ffi_type_ok. vm_compute. intuition discriminate.
  - vm_compute. discriminate.
  - vm_compute. discriminate.
  - assert (Hv : alignUp (bytes after_huge) (alignment char_t) = 2147483648)
      by (vm_compute; reflexivity).
    rewrite Hv in *.
    exists c'. split; [exact Hrun|]. split; [vm_compute; reflexivity|].
    apply Hlarge. vm_compute. reflexivity.
Defined.

(** ** Re-entry, end to end *)

(** A native function that calls back through a trampoline: the engine
    releases, the bridge acquires and releases, the engine reacquires, in
    this nesting; the whole stretch is balanced from a held lock. *)
Example reentrant_call_trace :
  exists w',
    ctypes_call 4096 8192 "qsort" reentrant_fn checked_locked_spec
                no_handback (fun slot => slot) (managed_world binary_chain)
    = (Val 4104, w') /\
    trace w' =
      [Ev_argwriter 4096; Ev_release_runtime; Ev_errno_reset;
       Ev_ffi_call 4202496 4104 [4096] [None];
       Ev_acquire_runtime; Ev_resolve 7;
       Ev_apply_Fn (Val_ptr 256); Ev_apply_Fn (Val_ptr 264);
       Ev_apply_Done (Val_ptr 512); Ev_release_runtime;
       Ev_errno_saved 0; Ev_acquire_runtime; Ev_rvreader 4104] /\
    lock_balanced true (trace w') /\ runtime_held w' = true.
Proof.
  eexists. split; [vm_compute; reflexivity|].
  split; [reflexivity|]. split; reflexivity.
Qed.

(** The same call when the key has expired: the exception leaves the
    bridge and the engine at once, skipping the bridge's release and the
    engine's reacquire alike, and reaches managed code with the lock
    held. *)
Example reentrant_call_expired :
  exists w',
    ctypes_call 4096 8192 "qsort" reentrant_fn checked_locked_spec
                no_handback (fun slot => slot) managed_world_expired
    = (Exn CallToExpiredClosure, w') /\
    trace w' =
      [Ev_argwriter 4096; Ev_release_runtime; Ev_errno_reset;
       Ev_ffi_call 4202496 4104 [4096] [None];
       Ev_acquire_runtime; Ev_resolve 7] /\
    lock_balanced true (trace w') /\ runtime_held w' = true.
Proof.
  eexists. split; [vm_compute; reflexivity|].
  split; [reflexivity|]. split; reflexivity.
Qed.

(** Mixed flags: the invocation keeps the lock ([runtime_lock] clear) and
    the native function enters a trampoline whose [runtime_lock] is set.
    The bridge acquires a lock that is already held and releases it on its
    way out; the engine reacquires nothing, and the invocation returns to
    managed code without the lock. *)
Example mixed_flags_return_without_lock :
  exists w',
    ctypes_call 4096 8192 "qsort" reentrant_fn pointer_spec
                no_handback (fun slot => slot) (managed_world binary_chain)
    = (Val 4104, w') /\
    trace w' =
      [Ev_argwriter 4096;
       Ev_ffi_call 4202496 4104 [4096] [None];
       Ev_acquire_runtime; Ev_resolve 7;
       Ev_apply_Fn (Val_ptr 256); Ev_apply_Fn (Val_ptr 264);
       Ev_apply_Done (Val_ptr 512); Ev_release_runtime;
       Ev_rvreader 4104] /\
    lock_run true (trace w') = None /\ runtime_held w' = false.
Proof.
  eexists. split; [vm_compute; reflexivity|].
  split; [reflexivity|]. split; reflexivity.
Qed.

(** The name reaches [unix_error] through [strcpy]: of a name holding a
    NUL byte, the system error carries the part before that byte. *)
Example unix_error_name_is_c_string :
  fst (ctypes_call 4096 8192
         (String "r" (String "e" (String Ascii.zero "ad")))
         (sets_errno 4) checked_locked_spec
         no_handback (fun slot => slot) world0)
  = Exn (Unix_error 4 "re").
Proof. vm_compute. reflexivity. Qed.

(** * Further properties of the stubs *)

(** ** aligned_offset *)

Lemma multiples_apart a m1 m2 :
  0 < a -> m1 mod a = 0 -> m2 mod a = 0 -> m1 < m2 -> m1 + a <= m2.
Proof.
  intros Ha H1 H2 Hlt.
  pose proof (Z.div_mod m1 a ltac:(lia)) as E1.
  pose proof (Z.div_mod m2 a ltac:(lia)) as E2.
  rewrite H1 in E1. rewrite H2 in E2.
  set (q1 := m1 / a) in *. set (q2 := m2 / a) in *.
  assert (Hq : q1 < q2) by nia.
  assert (Hq' : a * (q1 + 1) <= a * q2) by (apply Z.mul_le_mono_nonneg_l; lia).
  lia.
Qed.

(** X1.  Away from the top of the [size_t] range, [aligned_offset] returns
    the least multiple of the alignment that is not below the offset; it is
    less than one alignment away, and applying it twice changes nothing. *)
Theorem aligned_offset_least_multiple x a :
  0 < a -> 0 <= x -> x + a - 1 <= SIZE_MAX ->
  x <= aligned_offset x a < x + a /\
  aligned_offset x a mod a = 0 /\
  (forall y, x <= y -> y mod a = 0 -> aligned_offset x a <= y) /\
  aligned_offset (aligned_offset x a) a = aligned_offset x a.
Proof.
  intros Ha Hx Hfit.
  pose proof (alignUp_bounds x a Ha) as Hup.
  pose proof (alignUp_multiple x a Ha) as Hmul.
  rewrite (aligned_offset_alignUp x a) by lia.
  split; [exact Hup|]. split; [exact Hmul|]. split.
  - intros y Hy Hym.
    destruct (Z.le_gt_cases (alignUp x a) y) as [Hle | Hgt]; [exact Hle|].
    pose proof (multiples_apart a y (alignUp x a) Ha Hym Hmul Hgt). lia.
  - apply aligned_offset_multiple. exact Hmul.
Qed.

Lemma aligned_offset_least_multiple_witness :
  aligned_offset 17 4 = 20 /\ aligned_offset 20 4 = 20.
Proof.
  destruct (aligned_offset_least_multiple 17 4) as (_ & _ & _ & Hidem).
  - lia.
  - lia.
  - vm_compute. discriminate.
  - split; [reflexivity|]. replace 20 with (aligned_offset 17 4) at 1 by reflexivity.
    rewrite Hidem. reflexivity.
Defined.

(** X2.  At the top of the [size_t] range the rounding wraps around: when
    the next multiple of the alignment is not representable,
    [aligned_offset] returns it reduced by [2^64], a value below the offset
    it was given. *)
Theorem aligned_offset_wraps x a :
  0 < a <= SIZE_MAX -> 0 <= x <= SIZE_MAX ->
  x mod a <> 0 -> SIZE_MAX < x - x mod a + a ->
  aligned_offset x a = x - x mod a + a - 2 ^ 64 /\
  aligned_offset x a < x.
Proof.
  intros Ha Hx Hov Hbig. unfold aligned_offset.
  destruct (Z.eqb_spec (x mod a) 0) as [Hz | _]; [contradiction|].
  pose proof (Z.mod_pos_bound x a ltac:(lia)) as Hmod.
  assert (Hw : to_size_t (x - x mod a + a) = x - x mod a + a - 2 ^ 64).
  { unfold to_size_t, SIZE_MAX in *.
    symmetry. apply (Z.mod_unique _ _ 1); lia. }
  rewrite Hw. unfold SIZE_MAX in *. lia.
Qed.

Lemma aligned_offset_wraps_witness :
  aligned_offset SIZE_MAX 8 = 0.
Proof.
  destruct (aligned_offset_wraps SIZE_MAX 8) as [Hval _].
  - vm_compute. intuition discriminate.
  - vm_compute. intuition discriminate.
  - vm_compute. discriminate.
  - vm_compute. reflexivity.
  - rewrite Hval. vm_compute. reflexivity.
Defined.

(** ** The type array under any sequence of appends *)

Lemma capacity_for_after c :
  builder_inv c -> capacity c = capacity_for (nelements c) ->
  capacity_after c = capacity_for (nelements c + 1).
Proof.
  intros Hinv Hcap. unfold capacity_after. rewrite (grown_spec c Hinv).
  destruct Hinv as (_ & Hn & _ & _ & _).
  unfold capacity_for, increment_size in *.
  destruct (Z.eqb_spec (nelements c + 1) 0) as [|_]; [lia|].
  pose proof (Z.div_mod (nelements c + 1) 8 ltac:(lia)) as E1.
  pose proof (Z.mod_pos_bound (nelements c + 1) 8 ltac:(lia)) as B1.
  pose proof (Z.div_mod (nelements c + 1 + 1) 8 ltac:(lia)) as E2.
  pose proof (Z.mod_pos_bound (nelements c + 1 + 1) 8 ltac:(lia)) as B2.
  destruct (Z.eqb_spec (nelements c) 0) as [Hz | Hnz].
  - rewrite Hz in *. rewrite Hcap. reflexivity.
  - rewrite Hcap.
    destruct (Z.geb_spec (nelements c + 2) (8 * ((nelements c + 1) / 8 + 1)));
      lia.
Qed.

Lemma max_align_step a m :
  (if a >? m then a else m) = Z.max m a.
Proof. destruct (Z.gtb_spec a m); lia. Qed.

(** Any sequence of appends to a well-formed specification under
    construction succeeds, whatever the types, and keeps the type array
    well formed. *)
Lemma add_arguments_array ts :
  forall c,
    state c = BUILDING -> builder_inv c ->
    capacity c = capacity_for (nelements c) ->
    nelements c + Z.of_nat (length ts) + 17 <= SIZE_MAX ->
    exists offs c',
      add_arguments ts c = (Val offs, c') /\
      length offs = length ts /\
      state c' = BUILDING /\ builder_inv c' /\
      capacity c' = capacity_for (nelements c') /\
      nelements c' = nelements c + Z.of_nat (length ts) /\
      context c' = context c /\ roffset c' = roffset c /\ cif c' = cif c /\
      max_align c' = max_alignment (max_align c) ts /\
      (forall i, (i < Z.to_nat (nelements c))%nat ->
                 args c' !! i = args c !! i) /\
      (forall j t, ts !! j = Some t ->
                   args c' !! (Z.to_nat (nelements c) + j)%nat
                   = Some (Ptr t)) /\
      (ts <> [] ->
       args c' !! (Z.to_nat (nelements c) + length ts)%nat = Some Null).
Proof.
  induction ts as [|t ts IH]; intros c Hst Hinv Hcap Hroom.
  - exists [], c. simpl. rewrite Z.add_0_r.
    split_and!; try reflexivity; try assumption.
    + intros j t Hj. rewrite lookup_nil in Hj. discriminate.
    + intros Hne. contradiction.
  - simpl length in Hroom.
    pose proof (ctypes_add_argument_run t c Hst Hinv) as Hrun.
    cbv zeta in Hrun.
    set (c1 := mk_callspec _ _ _ _ _ _ _ _ _) in Hrun.
    assert (Hinv1 : builder_inv c1)
      by (apply builder_inv_after; [assumption | lia]).
    assert (Hcap1 : capacity c1 = capacity_for (nelements c1))
      by (subst c1; callspec_simpl; apply capacity_for_after; assumption).
    destruct (IH c1 eq_refl Hinv1 Hcap1)
      as (offs & c' & Hrest & Hlen & Hst' & Hinv' & Hcap' & Hn & Hcx & Hro
          & Hcif & Hmax & Hold & Hnew & Hterm).
    { subst c1. callspec_simpl. lia. }
    destruct (args_after_lookup t c Hinv) as (Hat & Hnull & Hbelow).
    destruct Hinv as (_ & Hn0 & _).
    eexists _, c'. simpl. rewrite (bind_val _ _ _ _ _ Hrun).
    rewrite (bind_val _ _ _ _ _ Hrest).
    subst c1. callspec_simpl_all.
    split; [reflexivity|].
    split; [simpl; rewrite Hlen; reflexivity|].
    split_and!; try assumption.
    + rewrite Hn. lia.
    + rewrite Hmax, max_align_step. reflexivity.
    + intros i Hi. rewrite Hold by lia. apply Hbelow. exact Hi.
    + intros j u Hj. destruct j as [|j]; simpl in Hj.
      * injection Hj as <-. rewrite Nat.add_0_r.
        rewrite Hold by lia. exact Hat.
      * replace (Z.to_nat (nelements c) + Datatypes.S j)%nat
          with (Z.to_nat (nelements c + 1) + j)%nat by lia.
        apply Hnew. exact Hj.
    + intros _. destruct ts as [|u ts'].
      * simpl in Hold |- *.
        replace (Z.to_nat (nelements c) + 1)%nat
          with (Z.to_nat (nelements c + 1)) by lia.
        assert (Hc' : args c' = args_after t c).
        { simpl in Hrest. injection Hrest as _ <-. reflexivity. }
        rewrite Hc'. exact Hnull.
      * replace (Z.to_nat (nelements c) + Datatypes.S (length (u :: ts')))%nat
          with (Z.to_nat (nelements c + 1) + length (u :: ts'))%nat by lia.
        apply Hterm. discriminate.
Qed.

Lemma allocated_starts_empty cerr lock :
  capacity (ctypes_allocate_callspec cerr lock)
  = capacity_for (nelements (ctypes_allocate_callspec cerr lock)).
Proof. reflexivity. Qed.

(** X3.  From a freshly allocated specification, appending any list of
    well-formed types (positive alignments; no bound on the total size)
    succeeds: no store leaves the heap block, the types sit in the array in
    insertion order, and a non-empty list is followed by a stored [NULL],
    not by an unwritten slot. *)
Theorem type_array_null_terminated cerr lock ts :
  Forall ffi_type_ok ts ->
  Z.of_nat (length ts) + 17 <= SIZE_MAX ->
  exists offs c,
    add_arguments ts (ctypes_allocate_callspec cerr lock) = (Val offs, c) /\
    length offs = length ts /\
    state c = BUILDING /\
    nelements c = Z.of_nat (length ts) /\
    (forall j t, ts !! j = Some t -> args c !! j = Some (Ptr t)) /\
    (ts <> [] -> args c !! length ts = Some Null).
Proof.
  intros _ Hroom.
  destruct (add_arguments_array ts (ctypes_allocate_callspec cerr lock)
              eq_refl (fresh_inv _ _) (allocated_starts_empty _ _))
    as (offs & c & Hrun & Hlen & Hst & _ & _ & Hn & _ & _ & _ & _ & _
        & Hnew & Hterm).
  { change (nelements (ctypes_allocate_callspec cerr lock)) with 0. lia. }
  change (nelements (ctypes_allocate_callspec cerr lock)) with 0 in *.
  exists offs, c. split_and!; assumption.
Qed.

Lemma type_array_null_terminated_witness :
  exists offs c,
    add_arguments [int32_t; double_t] fresh = (Val offs, c) /\
    args c !! 2%nat = Some Null.
Proof.
  destruct (type_array_null_terminated false false [int32_t; double_t])
    as (offs & c & Hrun & _ & _ & _ & _ & Hterm).
  - repeat constructor; vm_compute; intuition discriminate.
  - vm_compute. discriminate.
  - exists offs, c. split; [exact Hrun|]. apply Hterm. discriminate.
Defined.

(** X4.  The capacity of the type array depends only on the number of
    appended (well-formed) types: it is 0 for none and
    [8 * ((n + 1) / 8 + 1)] for [n >= 1]; the array has exactly that many
    slots, always room for the terminator, and never more than 8 slots
    beyond it. *)
Theorem capacity_by_chunks cerr lock ts :
  Forall ffi_type_ok ts ->
  Z.of_nat (length ts) + 17 <= SIZE_MAX ->
  exists offs c,
    add_arguments ts (ctypes_allocate_callspec cerr lock) = (Val offs, c) /\
    capacity c = capacity_for (Z.of_nat (length ts)) /\
    Z.of_nat (length (args c)) = capacity c /\
    (ts <> [] ->
     Z.of_nat (length ts) + 2 <= capacity c <= Z.of_nat (length ts) + 9).
Proof.
  intros _ Hroom.
  destruct (add_arguments_array ts (ctypes_allocate_callspec cerr lock)
              eq_refl (fresh_inv _ _) (allocated_starts_empty _ _))
    as (offs & c & Hrun & _ & _ & Hinv & Hcap & Hn & _).
  { change (nelements (ctypes_allocate_callspec cerr lock)) with 0. lia. }
  change (nelements (ctypes_allocate_callspec cerr lock)) with 0 in *.
  exists offs, c. rewrite Z.add_0_l in Hn. rewrite Hn in Hcap.
  destruct Hinv as (Hlen & _ & Hterm & Hspare & _).
  split_and!; try assumption.
  intros Hne. rewrite Hn in *.
  destruct ts; [contradiction|]. simpl length in *. lia.
Qed.

Lemma capacity_by_chunks_witness :
  exists offs c,
    add_arguments (repeat char_t 7) fresh = (Val offs, c) /\
    capacity c = 16.
Proof.
  destruct (capacity_by_chunks false false (repeat char_t 7))
    as (offs & c & Hrun & Hcap & _).
  - repeat constructor; vm_compute; intuition discriminate.
  - vm_compute. discriminate.
  - exists offs, c. split; [exact Hrun|]. rewrite Hcap.
    vm_compute. reflexivity.
Defined.

(** X5.  Appending well-formed types never touches the call context, the
    return offset or the call interface, and [max_align] ends as the
    largest alignment appended (0 for an empty list). *)
Theorem appends_keep_context cerr lock ts :
  Forall ffi_type_ok ts ->
  Z.of_nat (length ts) + 17 <= SIZE_MAX ->
  exists offs c,
    add_arguments ts (ctypes_allocate_callspec cerr lock) = (Val offs, c) /\
    context c = {| check_errno := cerr; runtime_lock := lock |} /\
    roffset c = SIZE_MAX /\ cif c = None /\
    max_align c = max_alignment 0 ts.
Proof.
  intros _ Hroom.
  destruct (add_arguments_array ts (ctypes_allocate_callspec cerr lock)
              eq_refl (fresh_inv _ _) (allocated_starts_empty _ _))
    as (offs & c & Hrun & _ & _ & _ & _ & _ & Hcx & Hro & Hcif & Hmax & _).
  { change (nelements (ctypes_allocate_callspec cerr lock)) with 0. lia. }
  exists offs, c. split; [exact Hrun|].
  rewrite Hcx, Hro, Hcif, Hmax. split_and!; reflexivity.
Qed.

Lemma appends_keep_context_witness :
  exists offs c,
    add_arguments [int32_t; double_t; char_t]
                  (ctypes_allocate_callspec true true) = (Val offs, c) /\
    context c = {| check_errno := true; runtime_lock := true |} /\
    max_align c = 8.
Proof.
  destruct (appends_keep_context true true [int32_t; double_t; char_t])
    as (offs & c & Hrun & Hcx & _ & _ & Hmax).
  - repeat constructor; vm_compute; intuition discriminate.
  - vm_compute. discriminate.
  - exists offs, c. split; [exact Hrun|]. split; [exact Hcx|].
    rewrite Hmax. reflexivity.
Defined.

(** ** Prepare when libffi rejects, and the guards on the state *)

(** X6.  When libffi rejects the type list or the ABI of a specification
    whose return type is well formed (positive alignment),
    [ctypes_prep_callspec] raises [FFI_internal_error] with the message of
    that verdict ([FFI_BAD_TYPEDEF] for a rejected type list, [FFI_BAD_ABI]
    for a rejected ABI), and the state, the element count and the type
    array are as before; but the call interface has been allocated and the
    return slot has already been added: the return offset is set and, in
    range, the running size has grown by at least the return type and the
    pointer-sized pad. *)
Theorem prep_rejected_keeps_state status abi rt c :
  ffi_type_ok rt ->
  status abi (nelements c) rt (args c) = FFI_BAD_TYPEDEF \/
  status abi (nelements c) rt (args c) = FFI_BAD_ABI ->
  exists msg c',
    ctypes_prep_callspec status abi rt c
    = (Exn (FFI_internal_error msg), c') /\
    (status abi (nelements c) rt (args c) = FFI_BAD_TYPEDEF ->
     msg = "FFI_BAD_TYPEDEF"%string) /\
    (status abi (nelements c) rt (args c) = FFI_BAD_ABI ->
     msg = "FFI_BAD_ABI"%string) /\
    state c' = state c /\ nelements c' = nelements c /\
    args c' = args c /\ capacity c' = capacity c /\
    roffset c' = aligned_offset (bytes c) (alignment rt) /\
    cif c' <> None /\
    (0 <= bytes c ->
     alignUp (alignUp (bytes c) (alignment rt) + size rt) 8 + 8 <= SIZE_MAX ->
     bytes c + size rt + 8 <= bytes c').
Proof.
  intros Hrt Hrej.
  assert (Hrun : forall s, status abi (nelements c) rt (args c) = s ->
            ctypes_prep_callspec status abi rt c =
            (ctypes_check_ffi_status s >> modify (set_state CALLSPEC))
              (mk_callspec
                 (to_size_t
                    (aligned_offset
                       (to_size_t (aligned_offset (bytes c) (alignment rt)
                                   + size rt))
                       (alignment ffi_type_pointer)
                     + size ffi_type_pointer))
                 (nelements c) (capacity c) (max_align c) (state c) (args c)
                 (aligned_offset (bytes c) (alignment rt)) (context c)
                 (Some (mk_cif abi (nelements c) rt (args c))))).
  { intros s Hs. unfold ctypes_prep_callspec, ffi_prep_cif.
    cbv [bind modify get ret]. callspec_unfold. rewrite Hs. reflexivity. }
  assert (Hgrow :
    ffi_type_ok rt -> 0 <= bytes c ->
    alignUp (alignUp (bytes c) (alignment rt) + size rt) 8 + 8 <= SIZE_MAX ->
    bytes c + size rt + 8 <=
    to_size_t
      (aligned_offset
         (to_size_t (aligned_offset (bytes c) (alignment rt) + size rt))
         (alignment ffi_type_pointer)
       + size ffi_type_pointer)).
  { intros (Hrs & Hra) Hb Hfit.
    change (alignment ffi_type_pointer) with 8.
    change (size ffi_type_pointer) with 8.
    pose proof (alignUp_bounds (bytes c) (alignment rt) ltac:(lia)) as Hup.
    pose proof (alignUp_bounds (alignUp (bytes c) (alignment rt) + size rt) 8
                  ltac:(lia)) as Hup8.
    rewrite (aligned_offset_alignUp (bytes c) (alignment rt)) by lia.
    rewrite (to_size_t_small (alignUp (bytes c) (alignment rt) + size rt))
      by lia.
    rewrite (aligned_offset_alignUp (_ + size rt) 8) by lia.
    rewrite to_size_t_small by lia. lia. }
  destruct Hrej as [Hs | Hs]; rewrite (Hrun _ Hs); rewrite Hs;
    eexists _, _; (split; [reflexivity|]); callspec_simpl;
    split_and!; try reflexivity; try discriminate; try exact (Hgrow Hrt).
Qed.

Lemma prep_rejected_keeps_state_witness :
  exists c',
    ctypes_prep_callspec prep_bad_abi 0 int32_t fresh
    = (Exn (FFI_internal_error "FFI_BAD_ABI"), c') /\
    state c' = BUILDING /\ 12 <= bytes c'.
Proof.
  destruct (prep_rejected_keeps_state prep_bad_abi 0 int32_t fresh)
    as (msg & c' & Hrun & _ & Hmsg & Hst & _ & _ & _ & _ & _ & Hgrow).
  - unfold ffi_type_ok. vm_compute. intuition discriminate.
  - right. reflexivity.
  - rewrite (Hmsg eq_refl) in Hrun.
    exists c'. split; [exact Hrun|]. split; [exact Hst|].
    apply Hgrow.
    + vm_compute. discriminate.
    + vm_compute. discriminate.
Defined.

(** X7.  A specification still under construction is refused by every
    consumer: [compute_arg_buffer_size], [ctypes_call] and
    [ctypes_make_function_pointer] fail their assertion, and [ctypes_call]
    has by then done nothing: no callback has run, the lock and the error
    code are untouched, the native function is not entered. *)
Theorem building_spec_refused {A S} cs cb vra fnname fn argwriter
    (rvreader : Z -> A) w alloc st fnid (s : S) :
  state cs = BUILDING ->
  compute_arg_buffer_size cs tt = (Fault Assert_failed, tt) /\
  ctypes_call cb vra fnname fn cs argwriter rvreader w
  = (Fault Assert_failed, w) /\
  ctypes_make_function_pointer alloc st cs fnid s = (Fault Assert_failed, s).
Proof.
  intros Hst. unfold compute_arg_buffer_size, ctypes_call,
    ctypes_make_function_pointer.
  rewrite Hst. split_and!; reflexivity.
Qed.

Lemma building_spec_refused_witness :
  ctypes_call 4096 8192 "read" quiet_fn fresh no_handback
              (fun slot => slot) world0
  = (Fault Assert_failed, world0).
Proof.
  destruct (building_spec_refused (S := unit) fresh 4096 8192 "read"%string
              quiet_fn no_handback (fun slot => slot) world0 None FFI_OK 0 tt
              eq_refl) as (_ & Hcall & _).
  exact Hcall.
Defined.

(** ** The layout the builder and the engine agree on *)

Lemma layout_slot ts :
  forall start i o t,
    Forall ffi_type_ok ts ->
    fst (layout start ts) !! i = Some o -> ts !! i = Some t ->
    start <= o /\ o = alignUp (o) (alignment t) /\
    o mod alignment t = 0 /\ o + size t <= snd (layout start ts).
Proof.
  induction ts as [|u ts IH]; intros start i o t Hok Ho Ht.
  - rewrite lookup_nil in Ht. discriminate.
  - apply Forall_cons in Hok as [(Hus & Hua) Hok]. simpl in Ho |- *.
    pose proof (alignUp_bounds start (alignment u) ltac:(lia)) as Hup.
    pose proof (layout_end_ge (alignUp start (alignment u) + size u) ts Hok)
      as Hge.
    destruct i as [|i]; simpl in Ho, Ht.
    + injection Ho as <-. injection Ht as <-.
      pose proof (alignUp_multiple start (alignment u) ltac:(lia)) as Hm.
      split; [lia|]. split.
      * symmetry. apply alignUp_idempotent. lia.
      * split; [exact Hm | lia].
    + destruct (IH _ _ _ _ Hok Ho Ht) as (H1 & H2 & H3 & H4).
      split; [lia|]. split; [exact H2|]. split; [exact H3 | exact H4].
Qed.

Lemma layout_disjoint ts :
  forall start i j oi oj ti,
    Forall ffi_type_ok ts -> (i < j)%nat ->
    fst (layout start ts) !! i = Some oi -> ts !! i = Some ti ->
    fst (layout start ts) !! j = Some oj ->
    oi + size ti <= oj.
Proof.
  induction ts as [|u ts IH]; intros start i j oi oj ti Hok Hij Hi Hti Hj.
  - rewrite lookup_nil in Hti. discriminate.
  - apply Forall_cons in Hok as [Hu Hok]. simpl in Hi, Hj.
    destruct j as [|j]; [lia|]. simpl in Hj.
    destruct i as [|i]; simpl in Hi, Hti.
    + injection Hi as <-. injection Hti as <-.
      destruct (lookup_lt_is_Some_2 ts j) as [tj Htj].
      { apply lookup_lt_Some in Hj. rewrite layout_length in Hj. exact Hj. }
      destruct (layout_slot ts _ _ _ _ Hok Hj Htj) as (Hge & _). exact Hge.
    + apply (IH _ i j oi oj ti Hok ltac:(lia) Hi Hti Hj).
Qed.

(** X8.  While the argument area ends at or below [INT_MAX], the offsets
    [ctypes_add_argument] hands back place the arguments one after the
    other: each offset is a multiple of its type's alignment, each
    argument ends at or before the next one begins, and the running size
    afterwards is at or beyond the end of every argument. *)
Theorem builder_offsets_disjoint cerr lock ts :
  Forall ffi_type_ok ts ->
  Z.of_nat (length ts) + 17 <= SIZE_MAX ->
  snd (layout 0 ts) <= INT_MAX ->
  exists offs c,
    add_arguments ts (ctypes_allocate_callspec cerr lock) = (Val offs, c) /\
    length offs = length ts /\
    (forall i o t, offs !! i = Some o -> ts !! i = Some t ->
       0 <= o /\ o mod alignment t = 0 /\ o + size t <= bytes c) /\
    (forall i j oi oj ti, (i < j)%nat ->
       offs !! i = Some oi -> ts !! i = Some ti -> offs !! j = Some oj ->
       oi + size ti <= oj).
Proof.
  intros Hok Hroom Hend.
  destruct (add_arguments_layout ts (ctypes_allocate_callspec cerr lock)
              eq_refl (fresh_inv _ _))
    as (c & Hrun & Hbytes & _);
    [exact Hroom | exact Hok | simpl; lia | exact Hend |].
  change (bytes (ctypes_allocate_callspec cerr lock)) with 0 in *.
  exists (fst (layout 0 ts)), c. split; [exact Hrun|].
  split; [apply layout_length|]. split.
  - intros i o t Ho Ht.
    destruct (layout_slot ts _ _ _ _ Hok Ho Ht) as (H1 & _ & H3 & H4).
    rewrite Hbytes. auto.
  - intros i j oi oj ti Hij Hi Hti Hj.
    exact (layout_disjoint ts _ _ _ _ _ _ Hok Hij Hi Hti Hj).
Qed.

Lemma builder_offsets_disjoint_witness :
  exists offs c,
    add_arguments [int32_t; double_t; char_t] fresh = (Val offs, c) /\
    length offs = 3%nat.
Proof.
  destruct (builder_offsets_disjoint false false [int32_t; double_t; char_t])
    as (offs & c & Hrun & Hlen & _).
  - repeat constructor; vm_compute; intuition discriminate.
  - vm_compute. discriminate.
  - vm_compute. discriminate.
  - exists offs, c. split; [exact Hrun | exact Hlen].
Defined.

(** The fields of a specification built in range and prepared. *)
Lemma built_with_fields cerr lock ts rt :
  Forall ffi_type_ok ts -> ffi_type_ok rt ->
  snd (layout 0 ts) <= INT_MAX -> size rt <= INT_MAX ->
  Z.of_nat (length ts) <= INT_MAX ->
  exists c,
    built_with cerr lock ts rt = (Val tt, c) /\
    state c = CALLSPEC /\
    nelements c = Z.of_nat (length ts) /\
    (forall j t, ts !! j = Some t -> args c !! j = Some (Ptr t)) /\
    context c = {| check_errno := cerr; runtime_lock := lock |} /\
    roffset c = alignUp (snd (layout 0 ts)) (alignment rt) /\
    bytes c = alignUp (roffset c + size rt) 8 + 8 /\
    cif c = Some (mk_cif 0 (Z.of_nat (length ts)) rt (args c)).
Proof.
  intros Hok (Hrs & Hra) Hend Hrsz Hlen.
  destruct (add_arguments_layout ts (ctypes_allocate_callspec cerr lock)
              eq_refl (fresh_inv _ _))
    as (c0 & Hrun & Hbytes & Hn & Hst & Hinv & Hcx & _ & Hnew);
    [change (nelements (ctypes_allocate_callspec cerr lock)) with 0;
     unfold INT_MAX, SIZE_MAX in *; lia
    | exact Hok | simpl; lia | exact Hend |].
  change (bytes (ctypes_allocate_callspec cerr lock)) with 0 in *.
  change (nelements (ctypes_allocate_callspec cerr lock)) with 0 in *.
  rewrite Z.add_0_l in Hn.
  pose proof (ctypes_prep_callspec_run prep_ok 0 rt c0 eq_refl) as Hprep.
  cbv zeta in Hprep.
  change (alignment ffi_type_pointer) with 8 in Hprep.
  change (size ffi_type_pointer) with 8 in Hprep.
  pose proof (layout_end_ge 0 ts Hok) as Hge.
  pose proof (alignUp_bounds (snd (layout 0 ts)) (alignment rt) ltac:(lia))
    as Hup.
  pose proof (alignUp_bounds
                (alignUp (snd (layout 0 ts)) (alignment rt) + size rt) 8
                ltac:(lia)) as Hup8.
  rewrite Hbytes, Hn in Hprep.
  rewrite (aligned_offset_alignUp (snd (layout 0 ts)) (alignment rt)) in Hprep
    by (unfold INT_MAX, SIZE_MAX in *; lia).
  rewrite (to_size_t_small (alignUp _ _ + size rt)) in Hprep
    by (unfold INT_MAX, SIZE_MAX in *; lia).
  rewrite (aligned_offset_alignUp (_ + size rt) 8) in Hprep
    by (unfold INT_MAX, SIZE_MAX in *; lia).
  rewrite to_size_t_small in Hprep
    by (unfold INT_MAX, SIZE_MAX in *; lia).
  eexists. split.
  { unfold built_with. rewrite (bind_val _ _ _ _ _ Hrun). exact Hprep. }
  callspec_simpl. split_and!; try reflexivity.
  - intros j t Hj. apply (Hnew j t Hj).
  - exact Hcx.
Qed.

(** X9.  In the call buffer of a specification built in range, every
    argument slot the engine computes lies at an aligned offset between the
    buffer base and the return slot; the return slot is aligned for the
    return type and followed by at least 8 spare bytes inside the storage;
    the pointer array starts right at the end of the storage, 8-aligned,
    and the buffer size is the storage plus 8 bytes per argument. *)
Theorem call_buffer_regions cerr lock ts rt cb :
  Forall ffi_type_ok ts -> ffi_type_ok rt ->
  snd (layout 0 ts) <= INT_MAX -> size rt <= INT_MAX ->
  Z.of_nat (length ts) <= INT_MAX ->
  exists c slots total,
    built_with cerr lock ts rt = (Val tt, c) /\
    populate_arg_array c cb tt = (Val slots, tt) /\
    compute_arg_buffer_size c tt = (Val (total, bytes c), tt) /\
    length slots = length ts /\
    (forall i s t, slots !! i = Some s -> ts !! i = Some t ->
       cb <= s /\ (s - cb) mod alignment t = 0 /\
       s + size t <= cb + roffset c) /\
    (forall i j si sj ti, (i < j)%nat ->
       slots !! i = Some si -> ts !! i = Some ti -> slots !! j = Some sj ->
       si + size ti <= sj) /\
    roffset c mod alignment rt = 0 /\
    roffset c + size rt + 8 <= bytes c /\
    bytes c mod 8 = 0 /\
    total = bytes c + 8 * Z.of_nat (length ts).
Proof.
  intros Hok Hrt Hend Hrsz Hlen.
  destruct (built_with_fields cerr lock ts rt Hok Hrt Hend Hrsz Hlen)
    as (c & Hbuilt & Hst & Hn & Hargs & _ & Hro & Hbytes & _).
  destruct Hrt as (Hrs & Hra).
  pose proof (layout_end_ge 0 ts Hok) as Hge.
  pose proof (alignUp_bounds (snd (layout 0 ts)) (alignment rt) ltac:(lia))
    as Hup.
  pose proof (alignUp_multiple (snd (layout 0 ts)) (alignment rt) ltac:(lia))
    as Hrmul.
  pose proof (alignUp_bounds (roffset c + size rt) 8 ltac:(lia)) as Hup8.
  pose proof (alignUp_multiple (roffset c + size rt) 8 ltac:(lia)) as Hmul8.
  assert (Hb8 : bytes c mod 8 = 0).
  { rewrite Hbytes.
    replace (alignUp (roffset c + size rt) 8 + 8)
      with (alignUp (roffset c + size rt) 8 + 1 * 8) by lia.
    rewrite Z_mod_plus_full. exact Hmul8. }
  pose proof (populate_arg_array_layout c cb ts) as Hpop.
  rewrite Hn in Hpop.
  specialize (Hpop ltac:(lia) Hargs Hok
                   ltac:(unfold INT_MAX, SIZE_MAX in *; lia)).
  exists c, (Z.add cb <$> fst (layout 0 ts)).
  eexists. split; [exact Hbuilt|]. split; [exact Hpop|]. split.
  { rewrite (compute_arg_buffer_size_run c Hst).
    change (alignment ffi_type_pointer) with 8. unfold sizeof_voidp.
    rewrite (aligned_offset_multiple _ _ Hb8). rewrite Hn.
    rewrite (to_size_t_small (Z.of_nat (length ts) * 8))
      by (unfold INT_MAX, SIZE_MAX in *; lia).
    rewrite to_size_t_small
      by (unfold INT_MAX, SIZE_MAX in *; lia).
    reflexivity. }
  split; [rewrite length_fmap; apply layout_length|].
  split_and!.
  - intros i s t Hs Ht.
    apply list_lookup_fmap_Some in Hs as (o & -> & Ho).
    destruct (layout_slot ts _ _ _ _ Hok Ho Ht) as (H1 & _ & H3 & H4).
    replace (cb + o - cb) with o by lia. rewrite Hro. lia.
  - intros i j si sj ti Hij Hi Hti Hj.
    apply list_lookup_fmap_Some in Hi as (oi & -> & Hoi).
    apply list_lookup_fmap_Some in Hj as (oj & -> & Hoj).
    pose proof (layout_disjoint ts _ _ _ _ _ _ Hok Hij Hoi Hti Hoj). lia.
  - rewrite Hro. exact Hrmul.
  - rewrite Hbytes. lia.
  - exact Hb8.
  - lia.
Qed.

Lemma call_buffer_regions_witness :
  exists c slots total,
    built_with true true [int32_t; double_t; char_t] int32_t = (Val tt, c) /\
    populate_arg_array c 4096 tt = (Val slots, tt) /\
    compute_arg_buffer_size c tt = (Val (total, bytes c), tt) /\
    total = bytes c + 8 * 3.
Proof.
  destruct (call_buffer_regions true true [int32_t; double_t; char_t]
              int32_t 4096)
    as (c & slots & total & Hb & Hp & Hc & _ & _ & _ & _ & _ & _ & Ht).
  - repeat constructor; vm_compute; intuition discriminate.
  - unfold ffi_type_ok. vm_compute. intuition discriminate.
  - vm_compute. discriminate.
  - vm_compute. discriminate.
  - vm_compute. discriminate.
  - exists c, slots, total. split; [exact Hb|]. split; [exact Hp|].
    split; [exact Hc | exact Ht].
Defined.

(** ** Hand-backs that are not strings *)

Lemma pure_fault {S A} (c : M unit A) f (s : S) :
  c tt = (Fault f, tt) -> pure c s = (Fault f, s).
Proof. intros H. unfold pure. rewrite H. reflexivity. Qed.

Lemma handback_loop_fault fields vra :
  forall count start l,
    (start + count = length fields)%nat ->
    (exists i f, (start <= i)%nat /\ fields !! i = Some f /\
                 field_ok f = false) ->
    for_loop count start (handback_body fields vra) l tt
    = (Fault Assert_failed, tt).
Proof.
  induction count as [|count IH]; intros start [arr refs] Hlen
    (i & f & Hi & Hf & Hbad).
  - apply lookup_lt_Some in Hf. lia.
  - destruct (lookup_lt_is_Some_2 fields start ltac:(lia)) as [fs Hfs].
    assert (Hnext : field_ok fs = true ->
              exists i f, (Datatypes.S start <= i)%nat /\
                          fields !! i = Some f /\ field_ok f = false).
    { intros Hgood. exists i, f. split; [|auto].
      destruct (Nat.eq_dec i start) as [-> | Hne]; [|lia].
      rewrite Hfs in Hf. injection Hf as <-. congruence. }
    simpl. unfold handback_body at 1. rewrite Hfs.
    destruct fs as [| | [addr | m | addr'] arg_offset];
      try reflexivity;
      (erewrite bind_val by reflexivity;
       apply IH; [lia | apply Hnext; reflexivity]).
Qed.

(** X10.  When the writer hands back, for some argument, a pair whose first
    component is not a block with [String_tag] (an immediate integer, or a
    block with another tag), [ctypes_call] fails its assertion right after
    the writer has run: the lock has not been released, the error code is
    as it was and the native function has not been entered. *)
Theorem non_string_handback_aborts {A} cb vra fnname fn cs argwriter
    (rvreader : Z -> A) w i :
  state cs = CALLSPEC ->
  args_filled cs -> args_aligned cs ->
  (i < Z.to_nat (nelements cs))%nat ->
  field_ok (argwriter cb i) = false ->
  ctypes_call cb vra fnname fn cs argwriter rvreader w
  = (Fault Assert_failed, set_trace (trace w ++ [Ev_argwriter cb]) w).
Proof.
  intros Hst Hfilled _ Hi Hbad.
  destruct (populate_arg_array_total cs cb Hfilled) as (arr0 & Hpop & _).
  set (n := Z.to_nat (nelements cs)) in *.
  set (fields := argwriter cb <$> seq 0 n).
  assert (Hflen : length fields = n)
    by (unfold fields; rewrite length_fmap, length_seq; reflexivity).
  assert (Hloop :
    for_loop (length fields) 0%nat (handback_body fields vra)
             (arr0, replicate n None) tt = (Fault Assert_failed, tt)).
  { apply handback_loop_fault; [lia|].
    exists i, (argwriter cb i). split; [lia|]. split; [|exact Hbad].
    unfold fields. rewrite list_lookup_fmap.
    rewrite (proj2 (lookup_seq 0 n i i) (conj eq_refl Hi)). reflexivity. }
  unfold ctypes_call. rewrite Hst. cbv [callspec_state_eqb assert_].
  cbv [bind ret]. cbv beta iota.
  rewrite (pure_val _ _ _ (compute_arg_buffer_size_run cs Hst)).
  cbv beta iota.
  rewrite (pure_val _ _ _ Hpop). cbv beta iota.
  unfold log at 1. cbv [modify]. cbv beta iota.
  fold n. fold fields.
  rewrite (pure_fault _ _ _ Hloop). reflexivity.
Qed.

Lemma non_string_handback_aborts_witness :
  ctypes_call 4096 8192 "puts" quiet_fn pointer_spec int_handback
              (fun slot => slot) world0
  = (Fault Assert_failed, set_trace (trace world0 ++ [Ev_argwriter 4096]) world0).
Proof.
  apply (non_string_handback_aborts 4096 8192 "puts"%string quiet_fn
           pointer_spec int_handback (fun slot => slot) world0 0%nat).
  - vm_compute. reflexivity.
  - exact pointer_spec_filled.
  - exact pointer_spec_aligned.
  - vm_compute. lia.
  - reflexivity.
Defined.

(** ** Trampolines from built specifications *)

(** X11.  A trampoline made from a specification carries what the
    specification was given: the flags passed to
    [ctypes_allocate_callspec], one call-interface argument per appended
    type, and the function key narrowed to an [int]; a bridge run for an
    expired key takes the lock exactly when the allocation flag asked for
    it and asks the resolver for the narrowed key.  Without executable
    memory the factory raises [Out_of_memory]; a rejected binding raises
    [FFI_internal_error]. *)
Theorem trampoline_carries_flags cerr lock ts rt addr fnid :
  Forall ffi_type_ok ts -> ffi_type_ok rt ->
  snd (layout 0 ts) <= INT_MAX -> size rt <= INT_MAX ->
  Z.of_nat (length ts) <= INT_MAX ->
  exists c tr,
    built_with cerr lock ts rt = (Val tt, c) /\
    ctypes_make_function_pointer (Some addr) FFI_OK c fnid tt = (Val tr, tt) /\
    code_address tr = addr /\
    closure_context (tr_closure tr)
    = {| check_errno := cerr; runtime_lock := lock |} /\
    fnkey (tr_closure tr) = to_int fnid /\
    nargs (tr_cif tr) = Z.of_nat (length ts) /\
    (forall ret_slot cargs w retrieve,
       retrieve_closure_ w = Some retrieve ->
       retrieve (to_int fnid) = None ->
       exists w',
         invoke_trampoline tr ret_slot cargs w
         = (Exn CallToExpiredClosure, w') /\
         trace w' = trace w ++ when lock [Ev_acquire_runtime]
                            ++ [Ev_resolve (to_int fnid)]) /\
    ctypes_make_function_pointer None FFI_OK c fnid tt
    = (Exn Out_of_memory, tt) /\
    ctypes_make_function_pointer (Some addr) FFI_BAD_ABI c fnid tt
    = (Exn (FFI_internal_error "FFI_BAD_ABI"), tt).
Proof.
  intros Hok Hrt Hend Hrsz Hlen.
  destruct (built_with_fields cerr lock ts rt Hok Hrt Hend Hrsz Hlen)
    as (c & Hbuilt & Hst & Hn & _ & Hcx & _ & _ & Hcif).
  exists c. eexists. split; [exact Hbuilt|].
  unfold ctypes_make_function_pointer. rewrite Hst, Hcif, Hcx.
  split; [reflexivity|].
  cbn [code_address tr_closure tr_cif closure_context fnkey nargs].
  split_and!; try reflexivity.
  intros ret_slot cargs w retrieve Hres Hkey. eexists. split.
  - unfold invoke_trampoline. cbn [tr_cif tr_closure].
    apply (callback_handler_expired _ _ _ _ _ retrieve Hres). exact Hkey.
  - reflexivity.
Qed.

Lemma trampoline_carries_flags_witness :
  exists c tr,
    built_with false true [int32_t; double_t] int32_t = (Val tt, c) /\
    ctypes_make_function_pointer (Some 8392704) FFI_OK c (2 ^ 32 + 7) tt
    = (Val tr, tt) /\
    fnkey (tr_closure tr) = to_int (2 ^ 32 + 7) /\
    nargs (tr_cif tr) = 2.
Proof.
  destruct (trampoline_carries_flags false true [int32_t; double_t] int32_t
              8392704 (2 ^ 32 + 7))
    as (c & tr & Hb & Hm & _ & _ & Hkey & Hn & _).
  - repeat constructor; vm_compute; intuition discriminate.
  - unfold ffi_type_ok. vm_compute. intuition discriminate.
  - vm_compute. discriminate.
  - vm_compute. discriminate.
  - vm_compute. discriminate.
  - exists c, tr. split; [exact Hb|]. split; [exact Hm|].
    split; [exact Hkey | exact Hn].
Defined.

(** ** Chains that do not fit the call interface *)

Lemma call_Fn_Done k v w :
  call_Fn (Done k) v w = (Fault Assert_failed, w).
Proof. reflexivity. Qed.

Lemma call_Done_Fn k v w :
  call_Done (Fn k) v w = (Fault Assert_failed, w).
Proof. reflexivity. Qed.

(** A chain that reaches its result step before the arguments run out
    stops the loop with a failed assertion, after the steps it had. *)
Lemma bridge_loop_short (cargs : list Z) :
  forall count start b w,
    (start + count <= length cargs)%nat ->
    chain_after b (Val_ptr <$> take count (drop start cargs)) = None ->
    exists vs,
      for_loop count start
        (fun i boxedfn =>
           match cargs !! i with
           | Some cvalue => call_Fn boxedfn (Val_ptr cvalue)
           | None => crash Wild_access
           end) b w
      = (Fault Assert_failed, set_trace (trace w ++ (Ev_apply_Fn <$> vs)) w).
Proof.
  induction count as [|count IH]; intros start b w Hlen Hchain.
  - rewrite take_0, fmap_nil in Hchain. discriminate Hchain.
  - destruct (lookup_lt_is_Some_2 cargs start ltac:(lia)) as [x Hx].
    rewrite (drop_S _ _ _ Hx) in Hchain. rewrite firstn_cons in Hchain.
    rewrite fmap_cons in Hchain. simpl in Hchain |- *. rewrite Hx.
    destruct b as [k | k].
    + exists []. rewrite (bind_fault _ _ _ _ _ (call_Fn_Done k _ w)).
      unfold set_trace. rewrite fmap_nil, app_nil_r. destruct w; reflexivity.
    + rewrite (bind_val _ _ _ _ _ (call_Fn_run k (Val_ptr x) w)).
      destruct (IH (Datatypes.S start) (k (Val_ptr x))
                   (set_trace (trace w ++ [Ev_apply_Fn (Val_ptr x)]) w)
                   ltac:(lia) Hchain) as (vs & Hrun).
      exists (Val_ptr x :: vs). rewrite Hrun.
      unfold set_trace. cbn [trace errno runtime_held retrieve_closure_].
      rewrite fmap_cons, <- app_assoc. reflexivity.
Qed.

(** X12.  When the resolved chain does not consist of exactly one step per
    value the bridge feeds it followed by the result step (it is too short
    or too long), the bridge fails an assertion: it has taken the lock if
    asked to, called the resolver and applied some steps, but it never
    applies a result step and never releases the lock. *)
Theorem mismatched_chain_aborts cif ret_slot cargs cl w retrieve b :
  retrieve_closure_ w = Some retrieve ->
  retrieve (fnkey cl) = Some b ->
  (Z.to_nat (to_int (nargs cif)) <= length cargs)%nat ->
  (forall k, chain_after b (bridge_arguments cif cargs) <> Some (Done k)) ->
  exists vs w',
    callback_handler cif ret_slot cargs cl w = (Fault Assert_failed, w') /\
    trace w' =
      trace w ++ when (runtime_lock (closure_context cl)) [Ev_acquire_runtime]
      ++ [Ev_resolve (fnkey cl)] ++ (Ev_apply_Fn <$> vs).
Proof.
  intros Hres Hkey Hlen Hchain. unfold callback_handler.
  unfold bridge_arguments in Hchain.
  set (lk := runtime_lock (closure_context cl)).
  set (w1 := if lk then set_trace (trace w ++ [Ev_acquire_runtime])
                                  (set_runtime_held true w) else w).
  assert (H1 : (if lk then caml_acquire_runtime_system else ret tt) w
               = (Val tt, w1)) by (subst w1; destruct lk; reflexivity).
  rewrite (bind_val _ _ _ _ _ H1).
  assert (Hres1 : retrieve_closure_ w1 = Some retrieve)
    by (subst w1; destruct lk; exact Hres).
  assert (H2 : retrieve_closure (fnkey cl) w1
               = (Val b, set_trace (trace w1 ++ [Ev_resolve (fnkey cl)]) w1)).
  { unfold retrieve_closure. cbv [bind get log modify].
    rewrite Hres1, Hkey. reflexivity. }
  rewrite (bind_val _ _ _ _ _ H2).
  set (w2 := set_trace (trace w1 ++ [Ev_resolve (fnkey cl)]) w1).
  assert (Htr2 : trace w2 = trace w ++ when lk [Ev_acquire_runtime]
                                    ++ [Ev_resolve (fnkey cl)]).
  { subst w2 w1. destruct lk; unfold set_trace, set_runtime_held, when;
      cbn [trace]; rewrite <- ?app_assoc; reflexivity. }
  destruct (Z.eqb_spec (to_int (nargs cif)) 0) as [Hz | Hnz].
  - destruct b as [k0 | k0].
    + exists []. eexists.
      rewrite (bind_fault _ _ _ _ _ (call_Fn_Done k0 Val_unit w2)).
      split; [reflexivity|]. rewrite Htr2, fmap_nil, app_nil_r.
      reflexivity.
    + rewrite (bind_val _ _ _ _ _ (call_Fn_run k0 Val_unit w2)).
      simpl in Hchain.
      destruct (k0 Val_unit) as [k | k] eqn:Hk0;
        [exfalso; apply (Hchain k); reflexivity|].
      exists [Val_unit]. eexists.
      rewrite (bind_fault _ _ _ _ _ (call_Done_Fn k _ _)).
      split; [reflexivity|]. unfold set_trace at 1. cbn [trace].
      rewrite Htr2. rewrite <- !app_assoc. reflexivity.
  - rewrite <- (drop_0 cargs) in Hchain.
    destruct (chain_after b
                (Val_ptr <$> take (Z.to_nat (to_int (nargs cif)))
                                  (drop 0 cargs))) as [b' |] eqn:Hc.
    + destruct b' as [k | k]; [exfalso; apply (Hchain k); reflexivity|].
      rewrite (bind_val _ _ _ _ _
                 (bridge_loop_run cargs _ 0%nat b (Fn k) w2 Hlen Hc)).
      eexists _, _.
      rewrite (bind_fault _ _ _ _ _ (call_Done_Fn k _ _)).
      split; [reflexivity|]. unfold set_trace at 1. cbn [trace].
      rewrite Htr2. rewrite <- !app_assoc. reflexivity.
    + destruct (bridge_loop_short cargs _ 0%nat b w2 Hlen Hc) as (vs & Hrun).
      exists vs. eexists. rewrite (bind_fault _ _ _ _ _ Hrun).
      split; [reflexivity|]. unfold set_trace at 1. cbn [trace].
      rewrite Htr2. rewrite <- !app_assoc. reflexivity.
Qed.

Lemma mismatched_chain_aborts_witness :
  exists vs w',
    callback_handler (cif_of_arity 2) 512 [256; 264] locked_closure
                     (world_resolving ternary_chain)
    = (Fault Assert_failed, w') /\
    trace w' =
      trace (world_resolving ternary_chain) ++ [Ev_acquire_runtime]
      ++ [Ev_resolve 7] ++ (Ev_apply_Fn <$> vs).
Proof.
  destruct (mismatched_chain_aborts (cif_of_arity 2) 512 [256; 264]
              locked_closure (world_resolving ternary_chain)
              (fun _ => Some ternary_chain) ternary_chain)
    as (vs & w' & Hrun & Htr).
  - reflexivity.
  - reflexivity.
  - vm_compute. lia.
  - intros k. vm_compute. discriminate.
  - exists vs, w'. split; [exact Hrun | exact Htr].
Defined.

(** ** Registering the resolver *)

(** X13.  After [ctypes_set_closure_callback r], resolving a key asks [r]:
    the value [r] returns is the chain, and a key for which [r] raises gives
    [CallToExpiredClosure]; whatever resolver was registered before is
    forgotten, and registering leaves no other mark on the world. *)
Theorem registered_resolver_is_used r key w :
  exists w1,
    ctypes_set_closure_callback r w = (Val tt, w1) /\
    errno w1 = errno w /\ runtime_held w1 = runtime_held w /\
    trace w1 = trace w /\
    retrieve_closure key w1
    = (match r key with
       | Some b => Val b
       | None => Exn CallToExpiredClosure
       end,
       set_trace (trace w ++ [Ev_resolve key]) w1) /\
    (forall r0,
       snd (ctypes_set_closure_callback r
              (snd (ctypes_set_closure_callback r0 w))) = w1).
Proof.
  eexists. split; [reflexivity|].
  unfold set_retrieve_closure_. cbn [errno runtime_held trace].
  split_and!; try reflexivity.
  unfold retrieve_closure. cbv [bind get log modify].
  cbn [retrieve_closure_ trace]. destruct (r key); reflexivity.
Qed.

(** ** A specification without arguments *)

Lemma alignUp_zero a : alignUp 0 a = 0.
Proof. unfold alignUp. rewrite Zmod_0_l. reflexivity. Qed.

(** X14.  A specification with no argument, prepared for a return type,
    puts the return slot at the start of the buffer; the buffer is just the
    storage ([alignUp size 8 + 8] bytes), and [ctypes_call] dispatches with
    an empty pointer array and the return slot at the buffer address,
    never consulting what the writer might hand back. *)
Theorem nullary_call {A} cerr lock rt cb vra fnname fn argwriter
    (rvreader : Z -> A) errno_after events w :
  ffi_type_ok rt -> size rt <= INT_MAX ->
  native_behaves fn errno_after events ->
  let cx := {| check_errno := cerr; runtime_lock := lock |} in
  let e := errno_after (if cerr then 0 else errno w) in
  exists c,
    built_with cerr lock [] rt = (Val tt, c) /\
    roffset c = 0 /\
    bytes c = alignUp (size rt) 8 + 8 /\
    compute_arg_buffer_size c tt = (Val (bytes c, bytes c), tt) /\
    populate_arg_array c cb tt = (Val [], tt) /\
    ctypes_call cb vra fnname fn c argwriter rvreader w =
    (if cerr && negb (e =? 0)
     then Exn (Unix_error e (strcpy fnname))
     else Val (rvreader cb),
     mk_world e (if lock then true else runtime_held w)
              (trace w ++ call_events cx cb (fn_addr fn) cb [] [] events e)
              (retrieve_closure_ w)).
Proof.
  intros Hrt Hrsz Hnat cx e.
  destruct (built_with_fields cerr lock [] rt (List.Forall_nil _) Hrt)
    as (c & Hbuilt & Hst & Hn & _ & Hcx & Hro & Hbytes & _);
    [vm_compute; discriminate | exact Hrsz | vm_compute; discriminate |].
  simpl in Hro, Hn. rewrite alignUp_zero in Hro.
  rewrite Hro, Z.add_0_l in Hbytes.
  destruct Hrt as (Hrs & Hra).
  pose proof (alignUp_bounds (size rt) 8 ltac:(lia)) as Hup8.
  pose proof (alignUp_multiple (size rt) 8 ltac:(lia)) as Hmul8.
  assert (Hpop : populate_arg_array c cb tt = (Val [], tt)).
  { unfold populate_arg_array. rewrite Hn. reflexivity. }
  exists c. split; [exact Hbuilt|]. split; [exact Hro|].
  split; [exact Hbytes|]. split.
  { rewrite (compute_arg_buffer_size_run c Hst).
    change (alignment ffi_type_pointer) with 8.
    rewrite aligned_offset_multiple
      by (rewrite Hbytes;
          replace (alignUp (size rt) 8 + 8)
            with (alignUp (size rt) 8 + 1 * 8) by lia;
          rewrite Z_mod_plus_full; exact Hmul8).
    rewrite Hn. change (0 * sizeof_voidp) with 0.
    change (to_size_t 0) with 0. rewrite Z.add_0_r.
    rewrite to_size_t_small
      by (unfold INT_MAX, SIZE_MAX in *; lia).
    reflexivity. }
  split; [exact Hpop|].
  pose proof (ctypes_call_run cb vra fnname fn c argwriter rvreader
                [] [] [] errno_after events w Hst Hpop) as Hrun.
  rewrite Hn, Hcx, Hro in Hrun. cbv zeta in Hrun.
  change (to_int 0) with 0 in Hrun. rewrite Z.add_0_r in Hrun.
  apply Hrun; [reflexivity | exact Hnat].
Qed.

Lemma nullary_call_witness :
  exists c,
    built_with true false [] int32_t = (Val tt, c) /\
    roffset c = 0 /\ bytes c = alignUp (size int32_t) 8 + 8.
Proof.
  destruct (nullary_call true false int32_t 4096 8192 "getpid"%string
              (sets_errno 0) string_handback (fun slot => slot)
              (fun _ => 0) [] world0)
    as (c & Hb & Hro & Hby & _).
  - unfold ffi_type_ok. vm_compute. intuition discriminate.
  - vm_compute. discriminate.
  - apply sets_errno_behaves.
  - exists c. split; [exact Hb|]. split; [exact Hro | exact Hby].
Defined.
